(** * Christmas card studio: card state and generation orchestration

    A shallow embedding of [src/index.tsx] (the application) and
    [src/services/gemini.ts] (a second copy of the two service wrappers),
    with the properties of the card state, of the two generation handlers
    and of the export file name.

    Strings are JavaScript strings: sequences of UTF-16 code units, here
    [list N].  Handlers are programs over a small effect signature (state
    setters of the component, [alert], [console.error], the Gemini call,
    the rasteriser, the download link); [try]/[catch]/[finally] are
    combinators on such programs.  A world records the component state and
    everything the program did to the outside. *)

From Stdlib Require Import List String Ascii NArith ZArith Bool Lia.
From Equations Require Import Equations.
Import ListNotations.
Open Scope list_scope.

(** ** JavaScript values used by the program *)

Module JS.

(** A string is its sequence of UTF-16 code units. *)
Definition jsstring := list N.

(** A source literal (all literals of the program that matter are ASCII). *)
Fixpoint lit (s : string) : jsstring :=
  match s with
  | EmptyString => []
  | String c rest => N_of_ascii c :: lit rest
  end.

(** [ToBoolean] on a string: only the empty string is falsy. *)
Definition truthy (s : jsstring) : bool :=
  match s with
  | [] => false
  | _ :: _ => true
  end.

(** [a || b] on strings. *)
Definition or_else (a b : jsstring) : jsstring :=
  if truthy a then a else b.

(** [if (v)] on [string | null]: the string, when the test passes. *)
Definition narrow (v : option jsstring) : option jsstring :=
  match v with
  | Some s => if truthy s then Some s else None
  | None => None
  end.

(** [v || b] where [v] may be [undefined]. *)
Definition or_else_opt (v : option jsstring) (b : jsstring) : jsstring :=
  match v with
  | Some s => or_else s b
  | None => b
  end.

(** A possibly undefined string inside a template literal. *)
Definition template (v : option jsstring) : jsstring :=
  match v with
  | Some s => s
  | None => lit "undefined"
  end.

(** The class [\s] of a regular expression: WhiteSpace and LineTerminator
    code points of ECMAScript, all of them single code units. *)
Definition is_space (c : N) : bool :=
  ((9 <=? c) && (c <=? 13)
   || (c =? 32) || (c =? 160) || (c =? 5760)
   || (8192 <=? c) && (c <=? 8202)
   || (c =? 8232) || (c =? 8233) || (c =? 8239) || (c =? 8287)
   || (c =? 12288) || (c =? 65279))%N.

(** The greedy match of [\s+] anchored at the start of [s]: the number of
    code units matched, [None] when the first one is not whitespace. *)
Fixpoint leading_spaces (s : jsstring) : nat :=
  match s with
  | c :: rest => if is_space c then S (leading_spaces rest) else 0
  | [] => 0
  end.

Definition match_spaces (s : jsstring) : option nat :=
  match leading_spaces s with
  | O => None
  | S n => Some (S n)
  end.

(** [s.replace(/\s+/g, by)]: scan from the left; at a match emit [by] and
    resume after the match, otherwise copy one code unit. *)
Equations? replace_spaces (by_ : jsstring) (s : jsstring) : jsstring
  by wf (List.length s) lt :=
  replace_spaces by_ [] := [];
  replace_spaces by_ (c :: rest) with match_spaces (c :: rest) => {
    | Some (S n) := by_ ++ replace_spaces by_ (skipn n rest);
    | _ := c :: replace_spaces by_ rest }.
Proof.
  all: try rewrite length_skipn; simpl; lia.
Qed.

End JS.
Import JS.

(** ** The data model ([src/types.ts], repeated at the top of [src/index.tsx]) *)

Inductive CardTone := Heartfelt | Funny | Professional | Poetic | ShortAndSweet.

Inductive FrameStyle := Classic | CandyCane | WinterFrost.

(** The string a tone is at run time (it is interpolated into the prompts). *)
Definition tone_string (t : CardTone) : jsstring :=
  match t with
  | Heartfelt => lit "Heartfelt"
  | Funny => lit "Funny"
  | Professional => lit "Professional"
  | Poetic => lit "Poetic"
  | ShortAndSweet => lit "Short & Sweet"
  end.

Definition tone_eqb (a b : CardTone) : bool :=
  match a, b with
  | Heartfelt, Heartfelt | Funny, Funny | Professional, Professional
  | Poetic, Poetic | ShortAndSweet, ShortAndSweet => true
  | _, _ => false
  end.

Record CardData := {
  recipient : jsstring;
  sender : jsstring;
  tone : CardTone;
  frameStyle : FrameStyle;
  message : jsstring;
  imageUrl : jsstring;
  isGeneratingMessage : bool;
  isGeneratingImage : bool
}.

Definition INITIAL_CARD : CardData := {|
  recipient := [];
  sender := [];
  tone := Heartfelt;
  frameStyle := Classic;
  message := lit "Enter names below to create your magical Christmas wish...";
  imageUrl := lit "https://images.unsplash.com/photo-1543589077-47d816067f70?auto=format&fit=crop&q=80&w=1000";
  isGeneratingMessage := false;
  isGeneratingImage := false
|}.

(** The object spreads [{ ...prev, field: v }] of the handlers. *)
Definition spread_isGeneratingMessage (b : bool) (prev : CardData) : CardData :=
  {| recipient := recipient prev; sender := sender prev; tone := tone prev;
     frameStyle := frameStyle prev; message := message prev;
     imageUrl := imageUrl prev;
     isGeneratingMessage := b;
     isGeneratingImage := isGeneratingImage prev |}.

Definition spread_message (wish : jsstring) (b : bool) (prev : CardData) : CardData :=
  {| recipient := recipient prev; sender := sender prev; tone := tone prev;
     frameStyle := frameStyle prev; message := wish;
     imageUrl := imageUrl prev;
     isGeneratingMessage := b;
     isGeneratingImage := isGeneratingImage prev |}.

Definition spread_isGeneratingImage (b : bool) (prev : CardData) : CardData :=
  {| recipient := recipient prev; sender := sender prev; tone := tone prev;
     frameStyle := frameStyle prev; message := message prev;
     imageUrl := imageUrl prev;
     isGeneratingMessage := isGeneratingMessage prev;
     isGeneratingImage := b |}.

Definition spread_imageUrl (img : jsstring) (b : bool) (prev : CardData) : CardData :=
  {| recipient := recipient prev; sender := sender prev; tone := tone prev;
     frameStyle := frameStyle prev; message := message prev;
     imageUrl := img;
     isGeneratingMessage := isGeneratingMessage prev;
     isGeneratingImage := b |}.

(** ** What the Gemini client takes and returns

    Only the parts of the SDK's request and response the program touches.
    Every link of [response.candidates?.[0]?.content?.parts] may be
    undefined, and so may [response.text] and the two fields of a blob. *)

Inductive Contents :=
| ContentsString (prompt : jsstring)
| ContentsParts (texts : list jsstring).

Record Request := {
  model : jsstring;
  contents : Contents;
  aspectRatio : option jsstring
}.

Record Blob := { mimeType : option jsstring; data : option jsstring }.

Record Part := { inlineData : option Blob; partText : option jsstring }.

Record Content := { parts : option (list Part) }.

Record Candidate := { content : option Content }.

Record Response := {
  text : option jsstring;
  candidates : option (list Candidate)
}.

(** A thrown value; the program only logs it. *)
Definition Error := jsstring.

(** How a promise settles. *)
Inductive Outcome (X : Type) :=
| Resolved (x : X)
| Rejected (e : Error).
Arguments Resolved {X} x.
Arguments Rejected {X} e.

(** The client object [new GoogleGenAI({ apiKey })] builds. *)
Inductive Client := GoogleGenAI (apiKey : jsstring).

(** The rendered card element behind [cardRef]. *)
Definition Node := N.

Record ToPngOptions := {
  cacheBust : bool;
  pixelRatio : N;
  backgroundColor : jsstring
}.

(** ** Programs

    What a handler does to its surroundings, indexed by what comes back. *)

Inductive Eff : Type -> Type :=
| SetCard (f : CardData -> CardData) : Eff unit
| SetIsDownloading (b : bool) : Eff unit
| SetIsMobileMenuOpen (b : bool) : Eff unit
| Alert (msg : jsstring) : Eff unit
| ConsoleError (msg : jsstring) (e : Error) : Eff unit
| InnerWidth : Eff Z
| CardRefCurrent : Eff (option Node)
| NewGoogleGenAI : Eff (Outcome Client)
| GenerateContent (req : Request) : Eff (Outcome Response)
| SetTimeout (ms : N) : Eff unit
| ToPng (node : option Node) (opts : ToPngOptions) : Eff (Outcome jsstring)
| ClickDownload (download href : jsstring) : Eff unit.

Inductive Prog (A : Type) : Type :=
| Ret (a : A)
| Throw (e : Error)
| Vis {X : Type} (e : Eff X) (k : X -> Prog A).
Arguments Ret {A} a.
Arguments Throw {A} e.
Arguments Vis {A X} e k.

Fixpoint bind {A B : Type} (p : Prog A) (f : A -> Prog B) : Prog B :=
  match p with
  | Ret a => f a
  | Throw e => Throw e
  | Vis e k => Vis e (fun x => bind (k x) f)
  end.

Definition trigger {X : Type} (e : Eff X) : Prog X := Vis e Ret.

Declare Scope prog_scope.
Delimit Scope prog_scope with prog.
Bind Scope prog_scope with Prog.
Notation "x <- p ;; q" := (bind p (fun x => q))
  (at level 61, p at next level, right associativity) : prog_scope.
Notation "p ;; q" := (bind p (fun _ => q))
  (at level 61, right associativity) : prog_scope.
Open Scope prog_scope.

(** [await promise]: the value it resolves to, or a throw of what it was
    rejected with.  A synchronous call that may throw is read the same
    way: the value it returns, or a throw of what it threw. *)
Definition await {X : Type} (e : Eff (Outcome X)) : Prog X :=
  o <- trigger e ;;
  match o with
  | Resolved x => Ret x
  | Rejected err => Throw err
  end.

(** [try { p } catch (error) { h error }] *)
Fixpoint try_catch {A : Type} (p : Prog A) (h : Error -> Prog A) : Prog A :=
  match p with
  | Ret a => Ret a
  | Throw e => h e
  | Vis e k => Vis e (fun x => try_catch (k x) h)
  end.

(** [try { p } finally { f }] *)
Fixpoint try_finally {A : Type} (p : Prog A) (f : Prog unit) : Prog A :=
  match p with
  | Ret a => f ;; Ret a
  | Throw e => f ;; Throw e
  | Vis e k => Vis e (fun x => try_finally (k x) f)
  end.

(** ** The AI services of [src/index.tsx]

    Each service function first calls [getAI()], outside its [try]: what
    that call throws (the constructor, or reading [process.env]) leaves the
    function through no handler.  The request itself is inside the [try]. *)

Definition getAI : Prog Client := await NewGoogleGenAI.

Definition wish_prompt (recipient sender : jsstring) (tone : CardTone) : jsstring :=
  lit "Write a " ++ tone_string tone ++ lit " Christmas wish for " ++ recipient
  ++ lit " from " ++ sender
  ++ lit ". Keep it under 50 words. Focus on the joy of the holiday season. Do not use any markdown formatting, asterisks, or hashtags. Just the plain text.".

Definition wish_request (recipient sender : jsstring) (tone : CardTone) : Request :=
  {| model := lit "gemini-3-flash-preview";
     contents := ContentsString (wish_prompt recipient sender tone);
     aspectRatio := None |}.

Definition generateWishAI (recipient sender : jsstring) (tone : CardTone)
  : Prog jsstring :=
  ai <- getAI ;;
  try_catch
    (response <- await (GenerateContent (wish_request recipient sender tone)) ;;
     Ret (or_else_opt (text response)
            (lit "May your holiday be filled with magic and your new year with dreams coming true.")))
    (fun error =>
       trigger (ConsoleError (lit "Error generating wish:") error) ;;
       Ret (lit "Wishing you a season filled with light and laughter. Merry Christmas!")).

Definition image_prompt (tone : CardTone) : jsstring :=
  lit "A high-quality Christmas illustration. Style: "
  ++ (if tone_eqb tone Funny
      then lit "Whimsical high-detail Pixar style"
      else lit "Elegant painterly aesthetic")
  ++ lit ". Scene: cozy winter landscape, glowing lit pine tree, Santa's sleigh in the sky, soft falling snow. Warm candles. 1:1 aspect ratio. No text. Ultra high resolution.".

Definition image_request (tone : CardTone) : Request :=
  {| model := lit "gemini-2.5-flash-image";
     contents := ContentsParts [image_prompt tone];
     aspectRatio := Some (lit "1:1") |}.

(** [response.candidates?.[0]?.content?.parts || []] *)
Definition response_parts (response : Response) : list Part :=
  match candidates response with
  | Some (candidate :: _) =>
      match content candidate with
      | Some c =>
          match parts c with
          | Some ps => ps
          | None => []
          end
      | None => []
      end
  | _ => []
  end.

Definition data_uri (b : Blob) : jsstring :=
  lit "data:" ++ template (mimeType b) ++ lit ";base64," ++ template (data b).

(** The [for ... of] loop with its early [return]; [None] is the [null]
    returned after the loop. *)
Fixpoint first_inline_image (ps : list Part) : option jsstring :=
  match ps with
  | [] => None
  | part :: rest =>
      match inlineData part with
      | Some b => Some (data_uri b)
      | None => first_inline_image rest
      end
  end.

Definition generateCardImageAI (tone : CardTone) : Prog (option jsstring) :=
  ai <- getAI ;;
  try_catch
    (response <- await (GenerateContent (image_request tone)) ;;
     Ret (first_inline_image (response_parts response)))
    (fun error =>
       trigger (ConsoleError (lit "Error generating image:") error) ;;
       Ret None).

(** ** The handlers of [CardGenerator]

    [card] is the value of the state variable the handler closed over when
    the component rendered; the updaters passed to [setCard] receive the
    state current when they are applied. *)

Definition handleGenerateText (card : CardData) : Prog unit :=
  if negb (truthy (recipient card)) || negb (truthy (sender card)) then
    trigger (Alert (lit "Please enter both recipient and sender names!")) ;;
    Ret tt
  else
    trigger (SetCard (spread_isGeneratingMessage true)) ;;
    wish <- generateWishAI (recipient card) (sender card) (tone card) ;;
    trigger (SetCard (spread_message wish false)) ;;
    width <- trigger InnerWidth ;;
    if (width <? 1024)%Z then trigger (SetIsMobileMenuOpen false) else Ret tt.

Definition handleGenerateImage (card : CardData) : Prog unit :=
  trigger (SetCard (spread_isGeneratingImage true)) ;;
  img <- generateCardImageAI (tone card) ;;
  match narrow img with
  | Some url => trigger (SetCard (spread_imageUrl url false))
  | None => trigger (SetCard (spread_isGeneratingImage false))
  end.

(** The [download] attribute of the link. *)
Definition download_name (recipient : jsstring) : jsstring :=
  lit "christmas-card-"
  ++ replace_spaces (lit "_") (or_else recipient (lit "gift"))
  ++ lit ".png".

Definition downloadPNG (card : CardData) : Prog unit :=
  current <- trigger CardRefCurrent ;;
  match current with
  | None => Ret tt
  | Some _ =>
      trigger (SetIsDownloading true) ;;
      try_finally
        (try_catch
           (trigger (SetTimeout 200) ;;
            current' <- trigger CardRefCurrent ;;
            dataUrl <- await (ToPng current'
                                {| cacheBust := true; pixelRatio := 3;
                                   backgroundColor := lit "#ffffff" |}) ;;
            trigger (ClickDownload (download_name (recipient card)) dataUrl))
           (fun err =>
              trigger (ConsoleError (lit "Download failed:") err) ;;
              trigger (Alert (lit "Could not download image. Try taking a screenshot or use "
                              ++ [34%N] ++ lit "Print" ++ [34%N] ++ lit "."))))
        (trigger (SetIsDownloading false))
  end.

(** ** Running a program

    The surroundings: what the environment answers, and a world holding
    the component state and a record of what the program did.  An [Env]
    holds the answers given to one invocation of a handler, which calls
    [getAI()] at most once and issues at most one request; invocations of
    the same handler in flight together are each given their own. *)

Record Env := {
  innerWidth : Z;
  cardRef : option Node;
  (* what [new GoogleGenAI({ apiKey: process.env.API_KEY || "" })] evaluates
     to: a client, or the value it throws *)
  newGoogleGenAI : Outcome Client;
  generateContent : Request -> Outcome Response;
  toPng : option Node -> ToPngOptions -> Outcome jsstring
}.

Record World := {
  card : CardData;
  isDownloading : bool;
  isMobileMenuOpen : bool;
  (* every value the card state took through [setCard], newest first *)
  cardUpdates : list CardData;
  alerts : list jsstring;
  consoleErrors : list (jsstring * Error);
  requests : list Request;
  downloads : list (jsstring * jsstring)
}.

Definition initial_world : World := {|
  card := INITIAL_CARD;
  isDownloading := false;
  isMobileMenuOpen := false;
  cardUpdates := [];
  alerts := [];
  consoleErrors := [];
  requests := [];
  downloads := []
|}.

(** What each effect does to the world. *)
Definition apply_setCard (f : CardData -> CardData) (w : World) : World :=
  {| card := f (card w); isDownloading := isDownloading w;
     isMobileMenuOpen := isMobileMenuOpen w;
     cardUpdates := f (card w) :: cardUpdates w;
     alerts := alerts w; consoleErrors := consoleErrors w;
     requests := requests w; downloads := downloads w |}.

Definition apply_setIsDownloading (b : bool) (w : World) : World :=
  {| card := card w; isDownloading := b;
     isMobileMenuOpen := isMobileMenuOpen w;
     cardUpdates := cardUpdates w;
     alerts := alerts w; consoleErrors := consoleErrors w;
     requests := requests w; downloads := downloads w |}.

Definition apply_setIsMobileMenuOpen (b : bool) (w : World) : World :=
  {| card := card w; isDownloading := isDownloading w;
     isMobileMenuOpen := b;
     cardUpdates := cardUpdates w;
     alerts := alerts w; consoleErrors := consoleErrors w;
     requests := requests w; downloads := downloads w |}.

Definition log_alert (msg : jsstring) (w : World) : World :=
  {| card := card w; isDownloading := isDownloading w;
     isMobileMenuOpen := isMobileMenuOpen w;
     cardUpdates := cardUpdates w;
     alerts := msg :: alerts w; consoleErrors := consoleErrors w;
     requests := requests w; downloads := downloads w |}.

Definition log_consoleError (msg : jsstring) (err : Error) (w : World) : World :=
  {| card := card w; isDownloading := isDownloading w;
     isMobileMenuOpen := isMobileMenuOpen w;
     cardUpdates := cardUpdates w;
     alerts := alerts w; consoleErrors := (msg, err) :: consoleErrors w;
     requests := requests w; downloads := downloads w |}.

Definition log_request (req : Request) (w : World) : World :=
  {| card := card w; isDownloading := isDownloading w;
     isMobileMenuOpen := isMobileMenuOpen w;
     cardUpdates := cardUpdates w;
     alerts := alerts w; consoleErrors := consoleErrors w;
     requests := req :: requests w; downloads := downloads w |}.

Definition log_download (name href : jsstring) (w : World) : World :=
  {| card := card w; isDownloading := isDownloading w;
     isMobileMenuOpen := isMobileMenuOpen w;
     cardUpdates := cardUpdates w;
     alerts := alerts w; consoleErrors := consoleErrors w;
     requests := requests w; downloads := (name, href) :: downloads w |}.

Definition handle (env : Env) {X : Type} (e : Eff X) (w : World) : X * World :=
  match e in Eff T return T * World with
  | SetCard f => (tt, apply_setCard f w)
  | SetIsDownloading b => (tt, apply_setIsDownloading b w)
  | SetIsMobileMenuOpen b => (tt, apply_setIsMobileMenuOpen b w)
  | Alert msg => (tt, log_alert msg w)
  | ConsoleError msg err => (tt, log_consoleError msg err w)
  | InnerWidth => (innerWidth env, w)
  | CardRefCurrent => (cardRef env, w)
  | NewGoogleGenAI => (newGoogleGenAI env, w)
  | GenerateContent req => (generateContent env req, log_request req w)
  | SetTimeout _ => (tt, w)
  | ToPng node opts => (toPng env node opts, w)
  | ClickDownload name href => (tt, log_download name href w)
  end.

(** How a handler's promise settles. *)
Inductive Completion (A : Type) :=
| Normal (a : A)
| Thrown (e : Error).
Arguments Normal {A} a.
Arguments Thrown {A} e.

(** One handler run from invocation to settlement. *)
Fixpoint run {A : Type} (env : Env) (p : Prog A) (w : World) : Completion A * World :=
  match p with
  | Ret a => (Normal a, w)
  | Throw e => (Thrown e, w)
  | Vis e k => let (x, w') := handle env e w in run env (k x) w'
  end.

(** *** Two handlers in flight

    The event loop runs one handler at a time and switches between them
    only where one awaits.  Here a handler may be preempted after any
    effect, which includes every schedule of the event loop.  The trace
    records, for each step, whose it was and the card state around it. *)

Inductive Op := TextOp | ImageOp.

Record Update := { owner : Op; before : CardData; after : CardData }.

Definition finished {A : Type} (p : Prog A) : bool :=
  match p with
  | Vis _ _ => false
  | _ => true
  end.

Definition step {A : Type} (env : Env) (p : Prog A) (w : World) : Prog A * World :=
  match p with
  | Vis e k => let (x, w') := handle env e w in (k x, w')
  | _ => (p, w)
  end.

Record Config := {
  textTask : Prog unit;
  imageTask : Prog unit;
  world : World;
  trace : list Update
}.

Definition step_op (env : Env) (o : Op) (c : Config) : Config :=
  match o with
  | TextOp =>
      let (p, w) := step env (textTask c) (world c) in
      {| textTask := p; imageTask := imageTask c; world := w;
         trace := {| owner := TextOp; before := card (world c); after := card w |}
                  :: trace c |}
  | ImageOp =>
      let (p, w) := step env (imageTask c) (world c) in
      {| textTask := textTask c; imageTask := p; world := w;
         trace := {| owner := ImageOp; before := card (world c); after := card w |}
                  :: trace c |}
  end.

Fixpoint interleave (env : Env) (schedule : list Op) (c : Config) : Config :=
  match schedule with
  | [] => c
  | o :: rest => interleave env rest (step_op env o c)
  end.

(** Let one task run to its end. *)
Fixpoint drain (env : Env) (o : Op) (p : Prog unit) (w : World) (tr : list Update)
  : Prog unit * World * list Update :=
  match p with
  | Vis e k =>
      let (x, w') := handle env e w in
      drain env o (k x) w'
        ({| owner := o; before := card w; after := card w' |} :: tr)
  | _ => (p, w, tr)
  end.

(** A whole interleaving: follow the schedule, then let whatever is still
    in flight finish. *)
Definition settle_both (env : Env) (schedule : list Op) (c : Config) : Config :=
  let c1 := interleave env schedule c in
  let '(pt, w1, tr1) := drain env TextOp (textTask c1) (world c1) (trace c1) in
  let '(pi, w2, tr2) := drain env ImageOp (imageTask c1) w1 tr1 in
  {| textTask := pt; imageTask := pi; world := w2; trace := tr2 |}.

(** Both handlers invoked, each with the card it closed over. *)
Definition both_invoked (cardT cardI : CardData) (w : World) : Config :=
  {| textTask := handleGenerateText cardT;
     imageTask := handleGenerateImage cardI;
     world := w; trace := [] |}.

(** ** The second copy of the services ([src/services/gemini.ts])

    The application does not import this module; it repeats the two service
    functions with its own constants. *)

Module Gemini.

Definition getAI : Prog Client := await NewGoogleGenAI.

Definition generateWish (recipient sender : jsstring) (tone : CardTone)
  : Prog jsstring :=
  ai <- getAI ;;
  try_catch
    (response <- await (GenerateContent (wish_request recipient sender tone)) ;;
     Ret (or_else_opt (text response) (lit "May your days be merry and bright!")))
    (fun error =>
       trigger (ConsoleError (lit "Error generating wish:") error) ;;
       Ret (lit "Wishing you a season filled with light and laughter. Merry Christmas!")).

Definition image_prompt (tone : CardTone) : jsstring :=
  lit "A stunning, award-winning Christmas masterpiece. Style: "
  ++ (if tone_eqb tone Funny
      then lit "Whimsical high-detail Pixar style"
      else lit "Elegant painterly aesthetic with warm golden hour lighting")
  ++ lit ". Subject: A high-quality festive scene featuring a cozy winter house, Santa Claus in his sleigh in the distance, a beautifully lit pine tree, and soft falling snow. Warm candles and glowing decorations. No text. 1:1 aspect ratio. Ultra high resolution.".

Definition image_request (tone : CardTone) : Request :=
  {| model := lit "gemini-2.5-flash-image";
     contents := ContentsParts [image_prompt tone];
     aspectRatio := Some (lit "1:1") |}.

Definition generateCardImage (tone : CardTone) (recipient : jsstring)
  : Prog (option jsstring) :=
  ai <- getAI ;;
  try_catch
    (response <- await (GenerateContent (image_request tone)) ;;
     Ret (first_inline_image (response_parts response)))
    (fun error =>
       trigger (ConsoleError (lit "Error generating image:") error) ;;
       Ret None).

End Gemini.

(** ** Notions the specification uses *)

(** The two fixed fallback wishes of the application. *)
Definition EMPTY_RESULT_FALLBACK : jsstring :=
  lit "May your holiday be filled with magic and your new year with dreams coming true.".

Definition FAILURE_FALLBACK : jsstring :=
  lit "Wishing you a season filled with light and laughter. Merry Christmas!".

(** Trimming, as the specification's precondition on the names has it
    ([String.prototype.trim] strips the code units of [\s] at both ends).
    The program itself never trims. *)
Definition trim_start (s : jsstring) : jsstring := skipn (leading_spaces s) s.

Definition trim (s : jsstring) : jsstring := rev (trim_start (rev (trim_start s))).

(** "Every maximal run of whitespace replaced by a single underscore": the
    input read as single non-space code units and maximal runs of spaces,
    the output with one underscore for each run. *)
Definition starts_with_space (s : jsstring) : bool :=
  match s with
  | c :: _ => is_space c
  | [] => false
  end.

Inductive collapsed : jsstring -> jsstring -> Prop :=
| collapsed_nil : collapsed [] []
| collapsed_char (c : N) (s r : jsstring) :
    is_space c = false -> collapsed s r -> collapsed (c :: s) (c :: r)
| collapsed_run (spaces s r : jsstring) :
    spaces <> [] -> forallb is_space spaces = true ->
    starts_with_space s = false ->
    collapsed s r -> collapsed (spaces ++ s) (lit "_" ++ r).

(** The fields outside the pair a generation operation owns. *)
Definition same_outside_text (c c' : CardData) : Prop :=
  recipient c' = recipient c /\ sender c' = sender c /\ tone c' = tone c
  /\ frameStyle c' = frameStyle c
  /\ imageUrl c' = imageUrl c /\ isGeneratingImage c' = isGeneratingImage c.

Definition same_outside_image (c c' : CardData) : Prop :=
  recipient c' = recipient c /\ sender c' = sender c /\ tone c' = tone c
  /\ frameStyle c' = frameStyle c
  /\ message c' = message c /\ isGeneratingMessage c' = isGeneratingMessage c.

Definition same_outside_own (o : Op) : CardData -> CardData -> Prop :=
  match o with
  | TextOp => same_outside_text
  | ImageOp => same_outside_image
  end.

(** Every card update a program can make, on any path, is within [P]. *)
Definition effect_within (P : CardData -> CardData -> Prop) {X : Type} (e : Eff X) : Prop :=
  match e with
  | SetCard f => forall c, P c (f c)
  | _ => True
  end.

Fixpoint updates_within (P : CardData -> CardData -> Prop) {A : Type} (p : Prog A) : Prop :=
  match p with
  | Vis e k => effect_within P e /\ forall x, updates_within P (k x)
  | _ => True
  end.

(** On the path the program takes in [env] (what an effect answers does
    not depend on the world) it never throws, and its last write to the
    flag clears it; [cleared] says whether the flag is clear where the
    program stands. *)
Fixpoint clears (env : Env) (flag : CardData -> bool) (cleared : bool)
    {A : Type} (p : Prog A) : Prop :=
  match p with
  | Vis e k =>
      match e with
      | SetCard f =>
          ((forall c, flag (f c) = false)
           /\ clears env flag true (k (fst (handle env e initial_world))))
          \/ ((forall c, flag (f c) = flag c)
              /\ clears env flag cleared (k (fst (handle env e initial_world))))
          \/ clears env flag false (k (fst (handle env e initial_world)))
      | _ => clears env flag cleared (k (fst (handle env e initial_world)))
      end
  | Ret _ => cleared = true
  | Throw _ => False
  end.

(** ** What the handlers leave in the world *)

(** The end of [handleGenerateText]: the mobile menu closes on a narrow
    window. *)
Definition close_menu_if_narrow (env : Env) (w : World) : World :=
  if (innerWidth env <? 1024)%Z then apply_setIsMobileMenuOpen false w else w.

(** The end of [handleGenerateImage]: the two branches on [img]. *)
Definition settle_image (img : option jsstring) (w : World) : World :=
  match narrow img with
  | Some url => apply_setCard (spread_imageUrl url false) w
  | None => apply_setCard (spread_isGeneratingImage false) w
  end.

(** ** Notions for two handlers in flight *)

Definition task (o : Op) (c : Config) : Prog unit :=
  match o with
  | TextOp => textTask c
  | ImageOp => imageTask c
  end.

Definition other (o : Op) : Op :=
  match o with
  | TextOp => ImageOp
  | ImageOp => TextOp
  end.

(** Every recorded step is within the relation of the task that took it. *)
Definition trace_within (P : Op -> CardData -> CardData -> Prop) (tr : list Update) : Prop :=
  Forall (fun u => P (owner u) (before u) (after u)) tr.

(** The fields neither generation operation owns. *)
Definition same_shared_fields (c c' : CardData) : Prop :=
  recipient c' = recipient c /\ sender c' = sender c /\ tone c' = tone c
  /\ frameStyle c' = frameStyle c.

(** Every step of a task stays within the relation of its owner. *)
Definition frame_invariant (P : Op -> CardData -> CardData -> Prop) (c : Config) : Prop :=
  updates_within (P TextOp) (textTask c)
  /\ updates_within (P ImageOp) (imageTask c)
  /\ trace_within P (trace c).

(** A relation both tasks keep holds between the first and the current card. *)
Definition kept_invariant (Q : CardData -> CardData -> Prop) (c0 : CardData) (c : Config) : Prop :=
  updates_within Q (textTask c)
  /\ updates_within Q (imageTask c)
  /\ Q c0 (card (world c)).

(** The owner of a flag is on its way to clearing it, and the other task
    does not write it. *)
Definition clearing_invariant (env : Env) (flag : CardData -> bool) (o : Op)
    (c : Config) : Prop :=
  (exists b, clears env flag b (task o c)
             /\ (b = true -> flag (card (world c)) = false))
  /\ updates_within (fun c1 c2 => flag c2 = flag c1) (task (other o) c).

(** ** The controls ([ControlsSection])

    The inputs and the style buttons pass [setCard] an object built from
    the [card] they were rendered with, not an updater: the new state is
    that card with one field replaced, whatever the state is by then. *)

Definition onChangeRecipient (card : CardData) (value : jsstring) : Prog unit :=
  trigger (SetCard (fun _ =>
    {| recipient := value; sender := sender card; tone := tone card;
       frameStyle := frameStyle card; message := message card;
       imageUrl := imageUrl card;
       isGeneratingMessage := isGeneratingMessage card;
       isGeneratingImage := isGeneratingImage card |})).

Definition onChangeSender (card : CardData) (value : jsstring) : Prog unit :=
  trigger (SetCard (fun _ =>
    {| recipient := recipient card; sender := value; tone := tone card;
       frameStyle := frameStyle card; message := message card;
       imageUrl := imageUrl card;
       isGeneratingMessage := isGeneratingMessage card;
       isGeneratingImage := isGeneratingImage card |})).

Definition onClickTone (card : CardData) (t : CardTone) : Prog unit :=
  trigger (SetCard (fun _ =>
    {| recipient := recipient card; sender := sender card; tone := t;
       frameStyle := frameStyle card; message := message card;
       imageUrl := imageUrl card;
       isGeneratingMessage := isGeneratingMessage card;
       isGeneratingImage := isGeneratingImage card |})).

Definition onClickFrame (card : CardData) (fs : FrameStyle) : Prog unit :=
  trigger (SetCard (fun _ =>
    {| recipient := recipient card; sender := sender card; tone := tone card;
       frameStyle := fs; message := message card;
       imageUrl := imageUrl card;
       isGeneratingMessage := isGeneratingMessage card;
       isGeneratingImage := isGeneratingImage card |})).

(** The four controls as one type of user edit. *)
Inductive Edit :=
| EditRecipient (value : jsstring)
| EditSender (value : jsstring)
| EditTone (t : CardTone)
| EditFrame (fs : FrameStyle).

Definition edit_handler (card : CardData) (e : Edit) : Prog unit :=
  match e with
  | EditRecipient value => onChangeRecipient card value
  | EditSender value => onChangeSender card value
  | EditTone t => onClickTone card t
  | EditFrame fs => onClickFrame card fs
  end.

(** ** Sharing ([shareToWhatsApp])

    [encodeURIComponent] as ECMAScript defines it: code units of the
    unreserved set are copied; any other code point is written as the
    percent-escaped octets of its UTF-8 form; an unpaired surrogate makes
    the call throw a URIError. *)

Definition is_unreserved (c : N) : bool :=
  ((65 <=? c) && (c <=? 90) || (97 <=? c) && (c <=? 122)
   || (48 <=? c) && (c <=? 57)
   || (c =? 45) || (c =? 95) || (c =? 46) || (c =? 33) || (c =? 126)
   || (c =? 42) || (c =? 39) || (c =? 40) || (c =? 41))%N.

Definition is_lead_surrogate (c : N) : bool := ((55296 <=? c) && (c <=? 56319))%N.

Definition is_trail_surrogate (c : N) : bool := ((56320 <=? c) && (c <=? 57343))%N.

Definition surrogate_pair (lead trail : N) : N :=
  ((lead - 55296) * 1024 + (trail - 56320) + 65536)%N.

Definition utf8 (cp : N) : list N :=
  (if cp <? 128 then [cp]
   else if cp <? 2048 then [192 + cp / 64; 128 + cp mod 64]
   else if cp <? 65536 then
     [224 + cp / 4096; 128 + (cp / 64) mod 64; 128 + cp mod 64]
   else
     [240 + cp / 262144; 128 + (cp / 4096) mod 64; 128 + (cp / 64) mod 64;
      128 + cp mod 64])%N.

Definition hex_digit (n : N) : N := (if n <? 10 then 48 + n else 55 + n)%N.

(** One octet as [%XY], upper-case. *)
Definition percent (octet : N) : jsstring :=
  [37%N; hex_digit (octet / 16); hex_digit (octet mod 16)].

Definition escape (cp : N) : jsstring := flat_map percent (utf8 cp).

(** [None] is the URIError. *)
Fixpoint encodeURIComponent (s : jsstring) : option jsstring :=
  match s with
  | [] => Some []
  | c :: rest =>
      if is_unreserved c then option_map (cons c) (encodeURIComponent rest)
      else if is_trail_surrogate c then None
      else if is_lead_surrogate c then
        match rest with
        | d :: rest' =>
            if is_trail_surrogate d
            then option_map (app (escape (surrogate_pair c d)))
                            (encodeURIComponent rest')
            else None
        | [] => None
        end
      else option_map (app (escape c)) (encodeURIComponent rest)
  end.

(** The message put into the link; the three characters outside ASCII are
    U+1F384, U+1F385 (a surrogate pair each) and U+2728. *)
Definition share_text (siteUrl : jsstring) (card : CardData) : jsstring :=
  [55356%N; 57220%N] ++ lit " Christmas Card for "
  ++ or_else (recipient card) (lit "you")
  ++ lit "! " ++ [55356%N; 57221%N] ++ [10%N; 10%N; 34%N]
  ++ message card
  ++ [34%N; 10%N; 10%N] ++ lit "Create yours: "
  ++ siteUrl
  ++ [10%N; 10%N] ++ lit "Generated by Infinity Team " ++ [10024%N].

(** [origin] is [window.location.origin]; the result is the pair of
    arguments given to [window.open], or the URIError thrown out of the
    handler (nothing catches it). *)
Definition shareToWhatsApp (origin : jsstring) (card : CardData)
  : Completion (jsstring * jsstring) :=
  match encodeURIComponent (share_text origin card) with
  | Some encoded => Normal (lit "https://wa.me/?text=" ++ encoded, lit "_blank")
  | None => Thrown (lit "URIError")
  end.

(** A string of 16-bit code units, none of them a surrogate. *)
Definition is_plain (c : N) : bool :=
  ((c <? 65536) && negb (is_lead_surrogate c) && negb (is_trail_surrogate c))%N.

(** A code unit that may appear in the query of the link as it stands. *)
Definition is_query_safe (c : N) : bool := is_unreserved c || (c =? 37)%N.

(** ** Two text generations in flight

    Nothing in [handleGenerateText] looks at the busy flag, so the handler
    can be invoked again before the first invocation has settled.  The two
    slots of a configuration then both hold a text generation, each
    answered from its own environment (see [step_op2]). *)
Definition both_text_invoked (card1 card2 : CardData) (w : World) : Config :=
  {| textTask := handleGenerateText card1;
     imageTask := handleGenerateText card2;
     world := w; trace := [] |}.

(** The pair of fields each generation operation owns. *)
Definition text_fields (c : CardData) : jsstring * bool :=
  (message c, isGeneratingMessage c).

Definition image_fields (c : CardData) : jsstring * bool :=
  (imageUrl c, isGeneratingImage c).

(** Every card update of the program decides the fields [proj] from the
    fields [proj] alone. *)
Definition effect_local {V : Type} (proj : CardData -> V) {X : Type} (e : Eff X) : Prop :=
  match e with
  | SetCard f => forall c c', proj c = proj c' -> proj (f c) = proj (f c')
  | _ => True
  end.

Fixpoint updates_local {V : Type} (proj : CardData -> V) {A : Type} (p : Prog A) : Prop :=
  match p with
  | Vis e k => effect_local proj e /\ forall x, updates_local proj (k x)
  | _ => True
  end.

(** ** What a generation leaves behind *)

(** The wish the service function hands back, by how the request settles. *)
Definition wish_of (o : Outcome Response) : jsstring :=
  match o with
  | Resolved response => or_else_opt (text response) EMPTY_RESULT_FALLBACK
  | Rejected _ => FAILURE_FALLBACK
  end.

(** What the image service function hands back. *)
Definition image_of (o : Outcome Response) : option jsstring :=
  match o with
  | Resolved response => first_inline_image (response_parts response)
  | Rejected _ => None
  end.

(** The [console.error] of a [catch], when the request was rejected. *)
Definition log_failure (label : jsstring) {X : Type} (o : Outcome X) (w : World) : World :=
  match o with
  | Resolved _ => w
  | Rejected e => log_consoleError label e w
  end.

(** ** Export: the capture options, the failure notice, names without
    whitespace *)

Definition PNG_OPTIONS : ToPngOptions :=
  {| cacheBust := true; pixelRatio := 3; backgroundColor := lit "#ffffff" |}.

Definition DOWNLOAD_FAILED_NOTICE : jsstring :=
  lit "Could not download image. Try taking a screenshot or use "
  ++ [34%N] ++ lit "Print" ++ [34%N] ++ lit ".".

Definition no_space (s : jsstring) : bool := forallb (fun c => negb (is_space c)) s.

(** ** More notions for handlers in flight *)

(** Where the fields [proj] of the card will stand once task [o] has run
    to its end does not change, whoever takes the next step. *)
Definition outcome_invariant (env : Env) {V : Type} (proj : CardData -> V)
    (o : Op) (K : V) (c : Config) : Prop :=
  updates_local proj (task o c)
  /\ updates_within (fun c1 c2 => proj c2 = proj c1) (task (other o) c)
  /\ proj (card (snd (run env (task o c) (world c)))) = K.

(** Two invocations of one handler may issue the same request and have it
    answered differently, so each of the two tasks gets its own
    environment: [env1] answers the first slot, [env2] the second. *)
Definition step_op2 (env1 env2 : Env) (o : Op) (c : Config) : Config :=
  match o with
  | TextOp => step_op env1 TextOp c
  | ImageOp => step_op env2 ImageOp c
  end.

Fixpoint interleave2 (env1 env2 : Env) (schedule : list Op) (c : Config) : Config :=
  match schedule with
  | [] => c
  | o :: rest => interleave2 env1 env2 rest (step_op2 env1 env2 o c)
  end.

Definition settle_both2 (env1 env2 : Env) (schedule : list Op) (c : Config) : Config :=
  let c1 := interleave2 env1 env2 schedule c in
  let '(pt, w1, tr1) := drain env1 TextOp (textTask c1) (world c1) (trace c1) in
  let '(pi, w2, tr2) := drain env2 ImageOp (imageTask c1) w1 tr1 in
  {| textTask := pt; imageTask := pi; world := w2; trace := tr2 |}.

(** Two tasks that both write a flag: whenever both have made their last
    write to it, it is clear. *)
Definition reentrant_invariant (env1 env2 : Env) (flag : CardData -> bool)
    (c : Config) : Prop :=
  exists b1 b2,
    clears env1 flag b1 (textTask c) /\ clears env2 flag b2 (imageTask c)
    /\ (b1 = true -> b2 = true -> flag (card (world c)) = false).

Definition message_empty (c : CardData) : bool := negb (truthy (message c)).

Definition is_request {X : Type} (e : Eff X) : nat :=
  match e with
  | GenerateContent _ => 1
  | _ => 0
  end.

(** The requests the program will still issue in this environment. *)
Fixpoint requests_ahead (env : Env) {A : Type} (p : Prog A) : nat :=
  match p with
  | Vis e k => is_request e + requests_ahead env (k (fst (handle env e initial_world)))
  | _ => 0
  end.

(** Requests issued and requests still ahead add up to [total]. *)
Definition requests_invariant (env1 env2 : Env) (total : nat) (c : Config) : Prop :=
  List.length (requests (world c))
  + requests_ahead env1 (textTask c) + requests_ahead env2 (imageTask c) = total.

(** What a control writes: the card it was rendered with, one field
    replaced. *)
Definition apply_edit (e : Edit) (c : CardData) : CardData :=
  match e with
  | EditRecipient value =>
      {| recipient := value; sender := sender c; tone := tone c;
         frameStyle := frameStyle c; message := message c; imageUrl := imageUrl c;
         isGeneratingMessage := isGeneratingMessage c;
         isGeneratingImage := isGeneratingImage c |}
  | EditSender value =>
      {| recipient := recipient c; sender := value; tone := tone c;
         frameStyle := frameStyle c; message := message c; imageUrl := imageUrl c;
         isGeneratingMessage := isGeneratingMessage c;
         isGeneratingImage := isGeneratingImage c |}
  | EditTone t =>
      {| recipient := recipient c; sender := sender c; tone := t;
         frameStyle := frameStyle c; message := message c; imageUrl := imageUrl c;
         isGeneratingMessage := isGeneratingMessage c;
         isGeneratingImage := isGeneratingImage c |}
  | EditFrame fs =>
      {| recipient := recipient c; sender := sender c; tone := tone c;
         frameStyle := fs; message := message c; imageUrl := imageUrl c;
         isGeneratingMessage := isGeneratingMessage c;
         isGeneratingImage := isGeneratingImage c |}
  end.

(** ** The pieces of the shared message *)

Definition is_code_unit (c : N) : bool := (c <? 65536)%N.

Definition SHARE_HEAD : jsstring := [55356%N; 57220%N] ++ lit " Christmas Card for ".

Definition SHARE_AFTER_RECIPIENT : jsstring :=
  lit "! " ++ [55356%N; 57221%N] ++ [10%N; 10%N; 34%N].

Definition SHARE_AFTER_MESSAGE : jsstring := [34%N; 10%N; 10%N] ++ lit "Create yours: ".

Definition SHARE_TAIL : jsstring :=
  [10%N; 10%N] ++ lit "Generated by Infinity Team " ++ [10024%N].

(** ** Sample inputs *)

(** An environment that answers every request with [o], and a card with
    the given names. *)
Definition sample_env (o : Outcome Response) : Env :=
  {| innerWidth := 1280; cardRef := Some 1%N;
     newGoogleGenAI := Resolved (GoogleGenAI []);
     generateContent := fun _ => o;
     toPng := fun _ _ => Resolved (lit "data:image/png;base64,AAAA") |}.

Definition sample_card (r s : jsstring) : CardData :=
  {| recipient := r; sender := s; tone := Heartfelt; frameStyle := Classic;
     message := message INITIAL_CARD; imageUrl := imageUrl INITIAL_CARD;
     isGeneratingMessage := false; isGeneratingImage := false |}.

(** A response whose first part is text and whose second carries a PNG. *)
Definition png_part : Part :=
  {| inlineData := Some {| mimeType := Some (lit "image/png");
                           data := Some (lit "AAAA") |};
     partText := None |}.

Definition png_response : Response :=
  {| text := None;
     candidates :=
       Some [ {| content :=
                   Some {| parts :=
                             Some [ {| inlineData := None;
                                       partText := Some (lit "Here it is") |};
                                    png_part ] |} |} ] |}.

(** Environments whose wish request resolves with a wish, and with an
    empty text. *)
Definition joy_env : Env :=
  sample_env (Resolved {| text := Some (lit "Joy!"); candidates := None |}).

Definition empty_result_env : Env :=
  sample_env (Resolved {| text := Some []; candidates := None |}).

(** An environment in which [getAI()] throws. *)
Definition no_client_env : Env :=
  {| innerWidth := 800; cardRef := Some 1%N;
     newGoogleGenAI := Rejected (lit "ReferenceError: process is not defined");
     generateContent := fun _ => Resolved {| text := Some (lit "Joy!"); candidates := None |};
     toPng := fun _ _ => Resolved (lit "data:image/png;base64,AAAA") |}.

(** An environment that answers the wish request with another wish. *)
Definition cheer_env : Env :=
  sample_env (Resolved {| text := Some (lit "Cheer!"); candidates := None |}).

(** A schedule that starts the image task, lets the text task run past it
    and comes back. *)
Definition sample_schedule : list Op :=
  [ImageOp; TextOp; TextOp; ImageOp; TextOp; ImageOp].

(** Environments for the export: no card element, and a capture that
    fails. *)
Definition no_element_env : Env :=
  {| innerWidth := 1280; cardRef := None;
     newGoogleGenAI := Resolved (GoogleGenAI []);
     generateContent := fun _ => Rejected [];
     toPng := fun _ _ => Rejected [] |}.

Definition capture_failed_env : Env :=
  {| innerWidth := 800; cardRef := Some 1%N;
     newGoogleGenAI := Resolved (GoogleGenAI []);
     generateContent := fun _ => Rejected (lit "503");
     toPng := fun _ _ => Rejected (lit "tainted canvas") |}.

(** * Properties *)

(** ** Basic facts *)

Lemma truthy_nonempty (s : jsstring) : s <> [] -> truthy s = true.
Proof.
  destruct s; [congruence | reflexivity].
Qed.

Lemma truthy_true_iff (s : jsstring) : truthy s = true <-> s <> [].
Proof.
  split; [| apply truthy_nonempty].
  destruct s; simpl; congruence.
Qed.

Lemma handle_answer (env : Env) {X : Type} (e : Eff X) (w w' : World) :
  fst (handle env e w) = fst (handle env e w').
Proof. destruct e; reflexivity. Qed.

Lemma run_bind {A B : Type} (env : Env) (p : Prog A) (f : A -> Prog B) (w : World) :
  run env (bind p f) w =
  match run env p w with
  | (Normal a, w') => run env (f a) w'
  | (Thrown e, w') => (Thrown e, w')
  end.
Proof.
  revert w. induction p as [a | e | X e k IH]; intro w; simpl; try reflexivity.
  destruct (handle env e w) as [x w']. apply IH.
Qed.

Lemma run_try_catch {A : Type} (env : Env) (p : Prog A) (h : Error -> Prog A) (w : World) :
  run env (try_catch p h) w =
  match run env p w with
  | (Normal a, w') => (Normal a, w')
  | (Thrown e, w') => run env (h e) w'
  end.
Proof.
  revert w. induction p as [a | e | X e k IH]; intro w; simpl; try reflexivity.
  destruct (handle env e w) as [x w']. apply IH.
Qed.

(** A service function starts with [getAI()]; what that throws is what the
    function throws, before anything else has happened. *)
Lemma run_getAI_bind {A : Type} (env : Env) (k : Client -> Prog A) (w : World) :
  run env (ai <- getAI ;; k ai) w =
  match newGoogleGenAI env with
  | Resolved ai => run env (k ai) w
  | Rejected e => (Thrown e, w)
  end.
Proof.
  unfold getAI, await. cbn [bind trigger run handle].
  destruct (newGoogleGenAI env); reflexivity.
Qed.

(** What the wish service returns and leaves behind, by how the client
    construction and the request settle. *)
Lemma run_generateWishAI (env : Env) (r s : jsstring) (t : CardTone) (w : World) :
  run env (generateWishAI r s t) w =
  match newGoogleGenAI env with
  | Rejected e0 => (Thrown e0, w)
  | Resolved _ =>
      match generateContent env (wish_request r s t) with
      | Resolved response =>
          (Normal (or_else_opt (text response) EMPTY_RESULT_FALLBACK),
           log_request (wish_request r s t) w)
      | Rejected e =>
          (Normal FAILURE_FALLBACK,
           log_consoleError (lit "Error generating wish:") e
             (log_request (wish_request r s t) w))
      end
  end.
Proof.
  unfold generateWishAI. rewrite run_getAI_bind.
  destruct (newGoogleGenAI env) as [ai | e0]; [| reflexivity].
  rewrite run_try_catch. unfold await. simpl.
  destruct (generateContent env (wish_request r s t)); reflexivity.
Qed.

Lemma run_generateCardImageAI (env : Env) (t : CardTone) (w : World) :
  run env (generateCardImageAI t) w =
  match newGoogleGenAI env with
  | Rejected e0 => (Thrown e0, w)
  | Resolved _ =>
      match generateContent env (image_request t) with
      | Resolved response =>
          (Normal (first_inline_image (response_parts response)),
           log_request (image_request t) w)
      | Rejected e =>
          (Normal None,
           log_consoleError (lit "Error generating image:") e
             (log_request (image_request t) w))
      end
  end.
Proof.
  unfold generateCardImageAI. rewrite run_getAI_bind.
  destruct (newGoogleGenAI env) as [ai | e0]; [| reflexivity].
  rewrite run_try_catch. unfold await. simpl.
  destruct (generateContent env (image_request t)); reflexivity.
Qed.

(** ** Text generation: the validation guard *)

Lemma run_handleGenerateText_guard (env : Env) (w : World) (c : CardData) :
  recipient c = [] \/ sender c = [] ->
  run env (handleGenerateText c) w
  = (Normal tt, log_alert (lit "Please enter both recipient and sender names!") w).
Proof.
  intro Hempty.
  assert (Hguard : negb (truthy (recipient c)) || negb (truthy (sender c)) = true).
  { destruct Hempty as [-> | ->]; simpl; [reflexivity | apply orb_true_r]. }
  unfold handleGenerateText. rewrite Hguard. reflexivity.
Qed.

(** C1 (as amended): when the recipient or the sender the handler closed
    over is the empty string, text generation only raises the validation
    notice: it settles normally, issues no request, applies no card update
    at all (so the busy flag is never set and every field of the card keeps
    its value), and the world differs from the one before by that notice
    alone. *)
Theorem text_generation_guard (env : Env) (w : World) (c : CardData) :
  recipient c = [] \/ sender c = [] ->
  run env (handleGenerateText c) w
  = (Normal tt, log_alert (lit "Please enter both recipient and sender names!") w)
  /\ requests (snd (run env (handleGenerateText c) w)) = requests w
  /\ cardUpdates (snd (run env (handleGenerateText c) w)) = cardUpdates w
  /\ card (snd (run env (handleGenerateText c) w)) = card w.
Proof.
  intro Hempty. rewrite (run_handleGenerateText_guard env w c Hempty).
  repeat split.
Qed.

Lemma text_generation_guard_witness :
  run (sample_env (Rejected [])) (handleGenerateText (sample_card [] (lit "Bob")))
      initial_world
  = (Normal tt,
     log_alert (lit "Please enter both recipient and sender names!") initial_world).
Proof.
  apply (text_generation_guard (sample_env (Rejected [])) initial_world
           (sample_card [] (lit "Bob"))).
  left. reflexivity.
Defined.

(** C1 as the specification words it fails: a recipient of one space is
    empty after trimming, yet the guard lets it through; a request is
    issued, the busy flag is set on the way and the message is replaced. *)
Lemma whitespace_recipient_passes_guard :
  trim (recipient (sample_card (lit " ") (lit "Bob"))) = []
  /\ requests (snd (run joy_env (handleGenerateText (sample_card (lit " ") (lit "Bob")))
                        initial_world))
     = [wish_request (lit " ") (lit "Bob") Heartfelt]
  /\ existsb isGeneratingMessage
       (cardUpdates (snd (run joy_env (handleGenerateText (sample_card (lit " ") (lit "Bob")))
                              initial_world))) = true
  /\ message (card (snd (run joy_env (handleGenerateText (sample_card (lit " ") (lit "Bob")))
                              initial_world)))
     <> message (card initial_world).
Proof.
  vm_compute. repeat split; discriminate.
Qed.

(** ** Text generation: a run that passes the guard *)

Lemma run_handleGenerateText (env : Env) (w : World) (c : CardData) :
  recipient c <> [] -> sender c <> [] ->
  run env (handleGenerateText c) w =
  match run env (generateWishAI (recipient c) (sender c) (tone c))
            (apply_setCard (spread_isGeneratingMessage true) w) with
  | (Normal wish, w1) =>
      (Normal tt, close_menu_if_narrow env (apply_setCard (spread_message wish false) w1))
  | (Thrown e, w1) => (Thrown e, w1)
  end.
Proof.
  intros Hr Hs. unfold handleGenerateText.
  rewrite (truthy_nonempty _ Hr), (truthy_nonempty _ Hs). cbn [negb orb].
  cbn [bind trigger run handle]. rewrite run_bind.
  destruct (run env (generateWishAI _ _ _) _) as [[wish | e] w1]; [| reflexivity].
  cbn [bind trigger run handle]. unfold close_menu_if_narrow.
  destruct (innerWidth env <? 1024)%Z; reflexivity.
Qed.

Lemma card_close_menu_if_narrow (env : Env) (w : World) :
  card (close_menu_if_narrow env w) = card w.
Proof.
  unfold close_menu_if_narrow. destruct (innerWidth env <? 1024)%Z; reflexivity.
Qed.

(** C2: when the request of the wish service (issued once [getAI()] has
    returned the client) is rejected, the service function returns the
    failure fallback instead of throwing, and a text generation that passed
    the guard settles normally with [message] equal to exactly that
    string. *)
Theorem text_generation_failure_fallback
    (env : Env) (w : World) (c : CardData) (ai : Client) (e : Error) :
  newGoogleGenAI env = Resolved ai ->
  generateContent env (wish_request (recipient c) (sender c) (tone c)) = Rejected e ->
  (forall w0, fst (run env (generateWishAI (recipient c) (sender c) (tone c)) w0)
              = Normal FAILURE_FALLBACK)
  /\ (recipient c <> [] -> sender c <> [] ->
      fst (run env (handleGenerateText c) w) = Normal tt
      /\ message (card (snd (run env (handleGenerateText c) w)))
         = lit "Wishing you a season filled with light and laughter. Merry Christmas!").
Proof.
  intros Hai Hthrow. split.
  - intro w0. rewrite run_generateWishAI, Hai, Hthrow. reflexivity.
  - intros Hr Hs. rewrite (run_handleGenerateText env w c Hr Hs).
    rewrite run_generateWishAI, Hai, Hthrow. cbn [fst snd].
    rewrite card_close_menu_if_narrow. split; reflexivity.
Qed.

Lemma text_generation_failure_fallback_witness :
  message (card (snd (run (sample_env (Rejected (lit "503")))
                          (handleGenerateText (sample_card (lit "Ann") (lit "Bob")))
                          initial_world)))
  = FAILURE_FALLBACK.
Proof.
  apply (text_generation_failure_fallback (sample_env (Rejected (lit "503")))
           initial_world (sample_card (lit "Ann") (lit "Bob")) (GoogleGenAI [])
           (lit "503"));
    [reflexivity | reflexivity | discriminate | discriminate].
Defined.

(** C3: when the request of the wish service (issued once [getAI()] has
    returned the client) resolves with a text that is undefined or empty, a
    text generation that passed the guard settles with [message] equal to
    exactly the empty-result fallback. *)
Theorem text_generation_empty_fallback
    (env : Env) (w : World) (c : CardData) (ai : Client) (response : Response) :
  newGoogleGenAI env = Resolved ai ->
  generateContent env (wish_request (recipient c) (sender c) (tone c))
  = Resolved response ->
  text response = None \/ text response = Some [] ->
  (forall w0, fst (run env (generateWishAI (recipient c) (sender c) (tone c)) w0)
              = Normal EMPTY_RESULT_FALLBACK)
  /\ (recipient c <> [] -> sender c <> [] ->
      fst (run env (handleGenerateText c) w) = Normal tt
      /\ message (card (snd (run env (handleGenerateText c) w)))
         = lit "May your holiday be filled with magic and your new year with dreams coming true.").
Proof.
  intros Hai Hres Hfalsy.
  assert (Hor : or_else_opt (text response) EMPTY_RESULT_FALLBACK = EMPTY_RESULT_FALLBACK).
  { destruct Hfalsy as [-> | ->]; reflexivity. }
  split.
  - intro w0. rewrite run_generateWishAI, Hai, Hres, Hor. reflexivity.
  - intros Hr Hs. rewrite (run_handleGenerateText env w c Hr Hs).
    rewrite run_generateWishAI, Hai, Hres, Hor. cbn [fst snd].
    rewrite card_close_menu_if_narrow. split; reflexivity.
Qed.

Lemma text_generation_empty_fallback_witness :
  message (card (snd (run empty_result_env
                          (handleGenerateText (sample_card (lit "Ann") (lit "Bob")))
                          initial_world)))
  = EMPTY_RESULT_FALLBACK.
Proof.
  apply (text_generation_empty_fallback empty_result_env
           initial_world (sample_card (lit "Ann") (lit "Bob")) (GoogleGenAI [])
           {| text := Some []; candidates := None |});
    [reflexivity | reflexivity | right; reflexivity | discriminate | discriminate].
Defined.

(** ** Image generation *)

Lemma run_handleGenerateImage (env : Env) (w : World) (c : CardData) :
  run env (handleGenerateImage c) w =
  match run env (generateCardImageAI (tone c))
            (apply_setCard (spread_isGeneratingImage true) w) with
  | (Normal img, w1) => (Normal tt, settle_image img w1)
  | (Thrown e, w1) => (Thrown e, w1)
  end.
Proof.
  unfold handleGenerateImage. cbn [bind trigger run handle]. rewrite run_bind.
  destruct (run env (generateCardImageAI _) _) as [[img | e] w1]; [| reflexivity].
  unfold settle_image. destruct (narrow img); reflexivity.
Qed.

Lemma first_inline_image_none (ps : list Part) :
  (forall q, In q ps -> inlineData q = None) -> first_inline_image ps = None.
Proof.
  induction ps as [| p ps IH]; intro Hnone; simpl; [reflexivity |].
  rewrite (Hnone p (or_introl eq_refl)). apply IH.
  intros q Hq. apply Hnone. right. exact Hq.
Qed.

Lemma first_inline_image_some (ps : list Part) (url : jsstring) :
  first_inline_image ps = Some url ->
  exists before part blob rest,
    ps = before ++ part :: rest
    /\ (forall q, In q before -> inlineData q = None)
    /\ inlineData part = Some blob
    /\ url = data_uri blob.
Proof.
  induction ps as [| p ps IH]; simpl; [discriminate |].
  destruct (inlineData p) as [b |] eqn:Hp.
  - intro Hurl. injection Hurl as <-.
    exists [], p, b, ps. repeat split; try assumption. intros q [].
  - intro Hurl. destruct (IH Hurl) as (before & part & blob & rest & -> & Hb & Hpart & ->).
    exists (p :: before), part, blob, rest. repeat split; try assumption.
    intros q [<- | Hq]; [exact Hp | apply Hb, Hq].
Qed.

Lemma first_inline_image_found (ps : list Part) (part : Part) :
  In part ps -> inlineData part <> None -> first_inline_image ps <> None.
Proof.
  induction ps as [| p ps IH]; simpl; [intros [] |].
  intros [<- | Hin] Hsome.
  - destruct (inlineData p); [discriminate | congruence].
  - destruct (inlineData p); [discriminate | apply IH; assumption].
Qed.

Lemma data_uri_truthy (b : Blob) : narrow (Some (data_uri b)) = Some (data_uri b).
Proof. reflexivity. Qed.

(** C5: when the image request is rejected, or resolves with no part that
    carries inline data, image generation leaves [imageUrl] as it was before
    the call; and, [getAI()] having returned the client, the image service
    function returns null and image generation settles normally. *)
Theorem image_generation_null_keeps_image (env : Env) (w : World) (c : CardData) :
  (exists e, generateContent env (image_request (tone c)) = Rejected e)
  \/ (exists response,
        generateContent env (image_request (tone c)) = Resolved response
        /\ forall q, In q (response_parts response) -> inlineData q = None) ->
  (forall ai, newGoogleGenAI env = Resolved ai ->
     (forall w0, fst (run env (generateCardImageAI (tone c)) w0) = Normal None)
     /\ fst (run env (handleGenerateImage c) w) = Normal tt)
  /\ imageUrl (card (snd (run env (handleGenerateImage c) w))) = imageUrl (card w).
Proof.
  intro Hnull.
  assert (Hrun : forall w0,
             (exists e w1, run env (generateCardImageAI (tone c)) w0 = (Thrown e, w1)
                           /\ newGoogleGenAI env = Rejected e /\ card w1 = card w0)
             \/ (exists ai w1, run env (generateCardImageAI (tone c)) w0 = (Normal None, w1)
                               /\ newGoogleGenAI env = Resolved ai /\ card w1 = card w0)).
  { intro w0. rewrite run_generateCardImageAI.
    destruct (newGoogleGenAI env) as [ai | e0].
    - right. exists ai. destruct Hnull as [[e ->] | (response & -> & Hnone)].
      + eexists. repeat split.
      + rewrite (first_inline_image_none _ Hnone). eexists. repeat split.
    - left. exists e0, w0. repeat split. }
  split.
  - intros ai Hai. split.
    + intro w0. destruct (Hrun w0) as [(e & w1 & _ & Hno & _) | (ai' & w1 & -> & _ & _)];
        [congruence | reflexivity].
    + rewrite run_handleGenerateImage.
      destruct (Hrun (apply_setCard (spread_isGeneratingImage true) w))
        as [(e & w1 & _ & Hno & _) | (ai' & w1 & -> & _ & _)];
        [congruence | reflexivity].
  - rewrite run_handleGenerateImage.
    destruct (Hrun (apply_setCard (spread_isGeneratingImage true) w))
      as [(e & w1 & -> & _ & Hcard) | (ai' & w1 & -> & _ & Hcard)].
    + cbn [snd]. rewrite Hcard. reflexivity.
    + cbn [snd]. unfold settle_image.
      cbn [narrow apply_setCard card spread_isGeneratingImage imageUrl].
      rewrite Hcard. reflexivity.
Qed.

Lemma image_generation_null_keeps_image_witness :
  imageUrl (card (snd (run (sample_env (Resolved {| text := Some (lit "no image");
                                                    candidates := Some [] |}))
                          (handleGenerateImage INITIAL_CARD) initial_world)))
  = imageUrl INITIAL_CARD.
Proof.
  apply (image_generation_null_keeps_image
           (sample_env (Resolved {| text := Some (lit "no image"); candidates := Some [] |}))
           initial_world INITIAL_CARD).
  right. eexists. split; [reflexivity | intros q []].
Defined.

(** C6: when the image request (issued once [getAI()] has returned the
    client) resolves and some part of the response carries inline data, the
    service function returns, and image generation stores in [imageUrl],
    the data URI [data:<mimeType>;base64,<data>] of the first such part. *)
Theorem image_generation_data_uri
    (env : Env) (w : World) (c : CardData) (ai : Client)
    (response : Response) (part0 : Part) :
  newGoogleGenAI env = Resolved ai ->
  generateContent env (image_request (tone c)) = Resolved response ->
  In part0 (response_parts response) ->
  inlineData part0 <> None ->
  exists before part blob rest,
    response_parts response = before ++ part :: rest
    /\ (forall q, In q before -> inlineData q = None)
    /\ inlineData part = Some blob
    /\ (forall w0, fst (run env (generateCardImageAI (tone c)) w0)
                   = Normal (Some (lit "data:" ++ template (mimeType blob)
                                   ++ lit ";base64," ++ template (data blob))))
    /\ imageUrl (card (snd (run env (handleGenerateImage c) w)))
       = lit "data:" ++ template (mimeType blob) ++ lit ";base64," ++ template (data blob)
    /\ forall m d, mimeType blob = Some m -> data blob = Some d ->
         imageUrl (card (snd (run env (handleGenerateImage c) w)))
         = lit "data:" ++ m ++ lit ";base64," ++ d.
Proof.
  intros Hai Hres Hin Hsome.
  destruct (first_inline_image (response_parts response)) as [url |] eqn:Hfirst;
    [| exfalso; exact (first_inline_image_found _ _ Hin Hsome Hfirst)].
  destruct (first_inline_image_some _ _ Hfirst)
    as (before & part & blob & rest & Hsplit & Hbefore & Hpart & ->).
  assert (Hurl : imageUrl (card (snd (run env (handleGenerateImage c) w))) = data_uri blob).
  { rewrite run_handleGenerateImage, run_generateCardImageAI, Hai, Hres, Hfirst.
    cbn [snd]. unfold settle_image. rewrite data_uri_truthy. reflexivity. }
  exists before, part, blob, rest. repeat split; try assumption.
  - intro w0. rewrite run_generateCardImageAI, Hai, Hres, Hfirst. reflexivity.
  - intros m d Hm Hd. rewrite Hurl. unfold data_uri. rewrite Hm, Hd. reflexivity.
Qed.

Lemma image_generation_data_uri_witness :
  imageUrl (card (snd (run (sample_env (Resolved png_response))
                          (handleGenerateImage INITIAL_CARD) initial_world)))
  = lit "data:image/png;base64,AAAA".
Proof.
  destruct (image_generation_data_uri (sample_env (Resolved png_response))
              initial_world INITIAL_CARD (GoogleGenAI []) png_response png_part)
    as (before & part & blob & rest & Hsplit & Hbefore & Hpart & _ & _ & Hurl);
    [reflexivity | reflexivity | right; left; reflexivity | discriminate |].
  apply (Hurl (lit "image/png") (lit "AAAA")).
  - destruct before as [| q [| q' before]].
    + injection Hsplit as <- _. discriminate Hpart.
    + injection Hsplit as _ <- _. injection Hpart as <-. reflexivity.
    + destruct before; discriminate Hsplit.
  - destruct before as [| q [| q' before]].
    + injection Hsplit as <- _. discriminate Hpart.
    + injection Hsplit as _ <- _. injection Hpart as <-. reflexivity.
    + destruct before; discriminate Hsplit.
Defined.

(** ** The export file name *)

Lemma replace_spaces_cons (by_ : jsstring) (c : N) (rest : jsstring) :
  replace_spaces by_ (c :: rest) =
  if is_space c
  then by_ ++ replace_spaces by_ (skipn (leading_spaces rest) rest)
  else c :: replace_spaces by_ rest.
Proof.
  simp replace_spaces. unfold match_spaces. cbn [leading_spaces].
  destruct (is_space c); reflexivity.
Qed.

Lemma leading_spaces_run (spaces s : jsstring) :
  forallb is_space spaces = true -> starts_with_space s = false ->
  leading_spaces (spaces ++ s) = List.length spaces.
Proof.
  intros Hall Hstop.
  induction spaces as [| c spaces IH]; cbn [forallb app leading_spaces List.length] in *.
  - destruct s as [| c s]; [reflexivity |].
    cbn [starts_with_space leading_spaces] in *. rewrite Hstop. reflexivity.
  - apply andb_true_iff in Hall as [Hc Hall]. rewrite Hc, (IH Hall). reflexivity.
Qed.

Lemma skipn_run (spaces s : jsstring) : skipn (List.length spaces) (spaces ++ s) = s.
Proof.
  induction spaces as [| c spaces IH]; [reflexivity | exact IH].
Qed.

Lemma replace_spaces_run (by_ spaces s : jsstring) :
  spaces <> [] -> forallb is_space spaces = true -> starts_with_space s = false ->
  replace_spaces by_ (spaces ++ s) = by_ ++ replace_spaces by_ s.
Proof.
  intros Hne Hall Hstop. destruct spaces as [| c spaces]; [congruence |].
  cbn [forallb] in Hall. apply andb_true_iff in Hall as [Hc Hall].
  rewrite <- app_comm_cons, replace_spaces_cons, Hc.
  rewrite (leading_spaces_run _ _ Hall Hstop), skipn_run. reflexivity.
Qed.

Lemma leading_spaces_firstn (s : jsstring) :
  forallb is_space (firstn (leading_spaces s) s) = true.
Proof.
  induction s as [| c s IH]; [reflexivity |]. cbn [leading_spaces].
  destruct (is_space c) eqn:Hc; [| reflexivity].
  cbn [firstn forallb]. rewrite Hc. exact IH.
Qed.

Lemma leading_spaces_skipn (s : jsstring) :
  starts_with_space (skipn (leading_spaces s) s) = false.
Proof.
  induction s as [| c s IH]; [reflexivity |]. cbn [leading_spaces].
  destruct (is_space c) eqn:Hc; [exact IH |]. cbn [skipn starts_with_space]. exact Hc.
Qed.

(** The relation of the specification determines its output, and that
    output is what the regular-expression replacement computes. *)
Lemma collapsed_functional (s r : jsstring) :
  collapsed s r -> r = replace_spaces (lit "_") s.
Proof.
  induction 1 as [| c s r Hc _ IH | spaces s r Hne Hall Hstop _ IH].
  - reflexivity.
  - rewrite replace_spaces_cons, Hc, IH. reflexivity.
  - rewrite (replace_spaces_run _ _ _ Hne Hall Hstop), IH. reflexivity.
Qed.

Lemma replace_spaces_collapsed (s : jsstring) :
  collapsed s (replace_spaces (lit "_") s).
Proof.
  remember (List.length s) as n eqn:Hn. revert s Hn.
  induction n as [n IH] using lt_wf_ind. intros s Hn.
  destruct s as [| c rest]; [constructor |].
  rewrite replace_spaces_cons. destruct (is_space c) eqn:Hc.
  - rewrite <- (firstn_skipn (leading_spaces rest) rest) at 1.
    rewrite app_comm_cons. apply collapsed_run.
    + discriminate.
    + cbn [forallb]. rewrite Hc. apply leading_spaces_firstn.
    + apply leading_spaces_skipn.
    + apply (IH (List.length (skipn (leading_spaces rest) rest))); [| reflexivity].
      subst n. rewrite length_skipn. simpl. lia.
  - apply collapsed_char; [exact Hc |].
    apply (IH (List.length rest)); [subst n; simpl; lia | reflexivity].
Qed.

(** What [downloadPNG] hands to the browser: nothing when there is no card
    element or the capture fails, else one file under [download_name]. *)
Lemma downloadPNG_downloads (env : Env) (w : World) (c : CardData) :
  fst (run env (downloadPNG c) w) = Normal tt
  /\ (downloads (snd (run env (downloadPNG c) w)) = downloads w
      \/ exists href,
           downloads (snd (run env (downloadPNG c) w))
           = (download_name (recipient c), href) :: downloads w).
Proof.
  unfold downloadPNG, await.
  cbn [bind trigger try_catch try_finally run handle].
  destruct (cardRef env) as [node |]; [| split; [reflexivity | left; reflexivity]].
  cbn [bind trigger try_catch try_finally run handle].
  destruct (toPng env _ _) as [href | err];
    cbn [bind trigger try_catch try_finally run handle fst snd].
  - split; [reflexivity | right; exists href; reflexivity].
  - split; [reflexivity | left; reflexivity].
Qed.

(** C7: for every recipient [name] the export file name is [christmas-card-],
    then the recipient (or [gift] when the recipient is empty) with every
    maximal run of whitespace replaced by one underscore, then [.png];
    [Jo Ann] gives [christmas-card-Jo_Ann.png] and the empty recipient
    gives [christmas-card-gift.png].  Whatever [downloadPNG] downloads, it
    downloads under that name. *)
Theorem export_file_name (name : jsstring) :
  (exists body,
      collapsed (match name with [] => lit "gift" | _ :: _ => name end) body
      /\ download_name name = lit "christmas-card-" ++ body ++ lit ".png")
  /\ download_name (lit "Jo Ann") = lit "christmas-card-Jo_Ann.png"
  /\ download_name [] = lit "christmas-card-gift.png"
  /\ forall env w c,
       downloads (snd (run env (downloadPNG c) w)) = downloads w
       \/ exists href,
            downloads (snd (run env (downloadPNG c) w))
            = (download_name (recipient c), href) :: downloads w.
Proof.
  split; [| split; [reflexivity | split; [reflexivity |]]].
  - exists (replace_spaces (lit "_") (or_else name (lit "gift"))). split.
    + destruct name; apply replace_spaces_collapsed.
    + reflexivity.
  - intros env w c. apply downloadPNG_downloads.
Qed.

(** C10: a recipient made of whitespace only is not replaced by [gift]:
    its single run collapses, and the file name is [christmas-card-_.png];
    the default is taken for the empty recipient alone. *)
Theorem export_file_name_whitespace_only (recipient : jsstring) :
  recipient <> [] -> forallb is_space recipient = true ->
  download_name recipient = lit "christmas-card-_.png"
  /\ download_name recipient
     = lit "christmas-card-" ++ replace_spaces (lit "_") recipient ++ lit ".png"
  /\ download_name recipient <> download_name [].
Proof.
  intros Hne Hall.
  assert (Hname : download_name recipient = lit "christmas-card-_.png").
  { unfold download_name, or_else. rewrite (truthy_nonempty _ Hne).
    rewrite <- (app_nil_r recipient).
    rewrite (replace_spaces_run _ _ [] Hne Hall eq_refl). reflexivity. }
  split; [exact Hname | split].
  - unfold download_name, or_else. rewrite (truthy_nonempty _ Hne). reflexivity.
  - rewrite Hname. discriminate.
Qed.

Lemma export_file_name_whitespace_only_witness :
  download_name (lit " ") = lit "christmas-card-_.png".
Proof.
  apply (export_file_name_whitespace_only (lit " ")); [discriminate | reflexivity].
Defined.

(** ** What the handlers can write, read off their programs *)

Ltac walk_prog :=
  repeat first
    [ progress cbn [bind try_catch try_finally trigger updates_within effect_within clears]
    | match goal with
      | |- _ /\ _ => split
      | |- True => exact I
      | |- forall _, _ => intro
      | x : Outcome _ |- _ => destruct x
      | |- context [if ?b then _ else _] => destruct b
      | |- context [match narrow ?v with _ => _ end] => destruct (narrow v)
      end ].

Lemma handleGenerateText_updates (c : CardData) :
  updates_within same_outside_text (handleGenerateText c).
Proof.
  unfold handleGenerateText, generateWishAI, getAI, await.
  walk_prog; unfold same_outside_text; cbn; repeat split.
Qed.

Lemma handleGenerateImage_updates (c : CardData) :
  updates_within same_outside_image (handleGenerateImage c).
Proof.
  unfold handleGenerateImage, generateCardImageAI, getAI, await.
  walk_prog; unfold same_outside_image; cbn; repeat split.
Qed.

Lemma handleGenerateText_clears (env : Env) (ai : Client) (c : CardData) :
  newGoogleGenAI env = Resolved ai ->
  recipient c <> [] -> sender c <> [] ->
  clears env isGeneratingMessage false (handleGenerateText c).
Proof.
  intros Hai Hr Hs. unfold handleGenerateText, generateWishAI, getAI, await.
  rewrite (truthy_nonempty _ Hr), (truthy_nonempty _ Hs).
  cbn [negb orb bind try_catch trigger clears handle fst]. rewrite Hai.
  right; right. cbn [bind try_catch trigger clears handle fst].
  destruct (generateContent env _) as [response | e];
    cbn [bind try_catch trigger clears handle fst];
    left; (split; [reflexivity |]);
    destruct (innerWidth env <? 1024)%Z; reflexivity.
Qed.

Lemma handleGenerateImage_clears (env : Env) (ai : Client) (c : CardData) :
  newGoogleGenAI env = Resolved ai ->
  clears env isGeneratingImage false (handleGenerateImage c).
Proof.
  intro Hai. unfold handleGenerateImage, generateCardImageAI, getAI, await.
  cbn [bind try_catch trigger clears handle fst]. rewrite Hai.
  right; right. cbn [bind try_catch trigger clears handle fst].
  destruct (generateContent env _) as [response | e];
    cbn [bind try_catch trigger clears handle fst].
  - destruct (narrow _); cbn [trigger clears]; left; split; reflexivity.
  - left; split; reflexivity.
Qed.

Lemma updates_within_weaken {A : Type} (P Q : CardData -> CardData -> Prop) (p : Prog A) :
  (forall c c', P c c' -> Q c c') -> updates_within P p -> updates_within Q p.
Proof.
  intro HPQ. induction p as [a | e | X e k IH]; cbn [updates_within]; [auto | auto |].
  intros [He Hk]. split; [| intro x; apply IH, Hk].
  destruct e; cbn [effect_within] in *; auto.
Qed.

Lemma handle_card_within (P : CardData -> CardData -> Prop) (env : Env)
      {X : Type} (e : Eff X) (w : World) :
  (forall c, P c c) -> effect_within P e ->
  P (card w) (card (snd (handle env e w))).
Proof.
  intros Hrefl He. destruct e; cbn in *; auto.
Qed.

Lemma step_updates_within {A : Type} (P : CardData -> CardData -> Prop) (env : Env)
      (p : Prog A) (w : World) :
  updates_within P p -> updates_within P (fst (step env p w)).
Proof.
  destruct p as [a | e | X e k]; cbn [step]; [auto | auto |].
  intros [_ Hk]. destruct (handle env e w) as [x w']. apply Hk.
Qed.

Lemma step_card_within {A : Type} (P : CardData -> CardData -> Prop) (env : Env)
      (p : Prog A) (w : World) :
  (forall c, P c c) -> updates_within P p ->
  P (card w) (card (snd (step env p w))).
Proof.
  intros Hrefl. destruct p as [a | e | X e k]; cbn [step]; [auto | auto |].
  intros [He _]. pose proof (handle_card_within P env e w Hrefl He) as H.
  destruct (handle env e w) as [x w']. exact H.
Qed.

Lemma step_clears {A : Type} (flag : CardData -> bool) (env : Env)
      (b : bool) (p : Prog A) (w : World) :
  clears env flag b p -> (b = true -> flag (card w) = false) ->
  exists b', clears env flag b' (fst (step env p w))
             /\ (b' = true -> flag (card (snd (step env p w))) = false).
Proof.
  destruct p as [a | e | X e k]; cbn [step clears].
  - intros -> Hw. exists true. cbn. auto.
  - intros [].
  - destruct e; cbn [handle fst snd];
      try (intros Hk Hw; exists b; split; [exact Hk | exact Hw]).
    intros [[Hf Hk] | [[Hf Hk] | Hk]] Hw.
    + exists true. split; [exact Hk | intros _; apply Hf].
    + exists b. split; [exact Hk |]. intro Hb. cbn. rewrite Hf. apply Hw, Hb.
    + exists false. split; [exact Hk | discriminate].
Qed.

Lemma run_card_within {A : Type} (P : CardData -> CardData -> Prop) (env : Env)
      (p : Prog A) (w : World) :
  (forall c, P c c) -> (forall c1 c2 c3, P c1 c2 -> P c2 c3 -> P c1 c3) ->
  updates_within P p -> P (card w) (card (snd (run env p w))).
Proof.
  intros Hrefl Htrans. revert w.
  induction p as [a | e | X e k IH]; intro w; cbn [run updates_within snd]; [auto | auto |].
  intros [He Hk]. pose proof (handle_card_within P env e w Hrefl He) as H.
  destruct (handle env e w) as [x w']. cbn [snd] in H.
  apply (Htrans _ _ _ H). apply IH, Hk.
Qed.

Lemma run_clears {A : Type} (flag : CardData -> bool) (env : Env)
      (b : bool) (p : Prog A) (w : World) :
  clears env flag b p -> (b = true -> flag (card w) = false) ->
  (exists a, fst (run env p w) = Normal a)
  /\ flag (card (snd (run env p w))) = false.
Proof.
  revert b w. induction p as [a | e | X e k IH]; intros b w; cbn [run clears].
  - intros -> Hw. split; [exists a; reflexivity | apply Hw; reflexivity].
  - intros [].
  - intros Hc Hw.
    destruct (step_clears flag env b (Vis e k) w Hc Hw) as (b' & Hc' & Hw').
    cbn [step] in Hc', Hw'. destruct (handle env e w) as [x w'].
    exact (IH x b' w' Hc' Hw').
Qed.

Section Interleaving.

Variable env : Env.

Lemma interleave_app (s1 s2 : list Op) (c : Config) :
  interleave env (s1 ++ s2) c = interleave env s2 (interleave env s1 c).
Proof.
  revert c. induction s1 as [| o s1 IH]; intro c; [reflexivity | apply IH].
Qed.

Lemma interleave_invariant (Inv : Config -> Prop) :
  (forall o c, Inv c -> Inv (step_op env o c)) ->
  forall schedule c, Inv c -> Inv (interleave env schedule c).
Proof.
  intros Hstep schedule. induction schedule as [| o rest IH]; intros c Hc; [exact Hc |].
  apply IH, Hstep, Hc.
Qed.

Lemma step_op_other (o : Op) (c : Config) :
  task (other o) (step_op env o c) = task (other o) c.
Proof.
  destruct o; cbn [step_op other];
    [destruct (step env (textTask c) (world c)) | destruct (step env (imageTask c) (world c))];
    reflexivity.
Qed.

Lemma step_op_task (o : Op) (c : Config) :
  task o (step_op env o c) = fst (step env (task o c) (world c))
  /\ world (step_op env o c) = snd (step env (task o c) (world c)).
Proof.
  destruct o; cbn [step_op task];
    [destruct (step env (textTask c) (world c)) | destruct (step env (imageTask c) (world c))];
    split; reflexivity.
Qed.

Lemma step_op_trace (o : Op) (c : Config) :
  trace (step_op env o c)
  = {| owner := o; before := card (world c);
       after := card (world (step_op env o c)) |} :: trace c.
Proof.
  destruct o; cbn [step_op];
    [destruct (step env (textTask c) (world c)) | destruct (step env (imageTask c) (world c))];
    reflexivity.
Qed.

(** Draining a task is scheduling it until it has finished. *)
Lemma drain_schedule (o : Op) (c : Config) :
  exists n,
    drain env o (task o c) (world c) (trace c)
    = (task o (interleave env (repeat o n) c),
       world (interleave env (repeat o n) c),
       trace (interleave env (repeat o n) c))
    /\ finished (task o (interleave env (repeat o n) c)) = true
    /\ task (other o) (interleave env (repeat o n) c) = task (other o) c.
Proof.
  remember (task o c) as p eqn:Hp. revert c Hp.
  induction p as [a | e | X e k IH]; intros c Hp.
  - exists 0. cbn. rewrite <- Hp. auto.
  - exists 0. cbn. rewrite <- Hp. auto.
  - destruct (handle env e (world c)) as [x w'] eqn:Hh.
    destruct (step_op_task o c) as [Htask Hworld].
    rewrite <- Hp in Htask, Hworld. cbn [step] in Htask, Hworld.
    rewrite Hh in Htask, Hworld. cbn [fst snd] in Htask, Hworld.
    destruct (IH x (step_op env o c) (eq_sym Htask)) as (n & Hdrain & Hfin & Hother).
    exists (S n). cbn [repeat interleave drain]. rewrite Hh.
    rewrite <- Hdrain, Hworld, step_op_trace, Hworld. repeat split.
    + exact Hfin.
    + rewrite Hother. apply step_op_other.
Qed.

Lemma settle_both_schedule (schedule : list Op) (c : Config) :
  exists n m,
    settle_both env schedule c
    = interleave env (schedule ++ repeat TextOp n ++ repeat ImageOp m) c
    /\ finished (textTask (settle_both env schedule c)) = true
    /\ finished (imageTask (settle_both env schedule c)) = true.
Proof.
  unfold settle_both.
  destruct (drain_schedule TextOp (interleave env schedule c)) as (n & Hd1 & Hf1 & Ho1).
  cbn [task other] in *. rewrite Hd1.
  set (c2 := interleave env (repeat TextOp n) (interleave env schedule c)) in *.
  destruct (drain_schedule ImageOp c2) as (m & Hd2 & Hf2 & Ho2).
  cbn [task other] in *. rewrite <- Ho1, Hd2.
  exists n, m. rewrite !interleave_app. fold c2.
  destruct (interleave env (repeat ImageOp m) c2) as [pt pi w tr] eqn:Hc3.
  cbn [textTask imageTask world trace] in *. subst pt.
  repeat split; assumption.
Qed.

Lemma settle_both_invariant (Inv : Config -> Prop) :
  (forall o c, Inv c -> Inv (step_op env o c)) ->
  forall schedule c, Inv c -> Inv (settle_both env schedule c).
Proof.
  intros Hstep schedule c Hc.
  destruct (settle_both_schedule schedule c) as (n & m & -> & _).
  apply interleave_invariant; assumption.
Qed.

End Interleaving.

Section Invariants.

Variable env : Env.

Lemma frame_invariant_step (P : Op -> CardData -> CardData -> Prop) :
  (forall o c, P o c c) ->
  forall o c, frame_invariant P c -> frame_invariant P (step_op env o c).
Proof.
  intros Hrefl o c (Ht & Hi & Htr).
  destruct (step_op_task env o c) as [Htask Hworld].
  pose proof (step_op_other env o c) as Hother.
  unfold frame_invariant. rewrite step_op_trace, Hworld.
  destruct o; cbn [task other] in *; rewrite Htask, Hother.
  - split; [apply step_updates_within, Ht | split; [exact Hi |]].
    constructor; [| exact Htr]. cbn [owner before after].
    apply step_card_within; [apply Hrefl | exact Ht].
  - split; [exact Ht | split; [apply step_updates_within, Hi |]].
    constructor; [| exact Htr]. cbn [owner before after].
    apply step_card_within; [apply Hrefl | exact Hi].
Qed.

Lemma kept_invariant_step (Q : CardData -> CardData -> Prop) (c0 : CardData) :
  (forall c, Q c c) -> (forall c1 c2 c3, Q c1 c2 -> Q c2 c3 -> Q c1 c3) ->
  forall o c, kept_invariant Q c0 c -> kept_invariant Q c0 (step_op env o c).
Proof.
  intros Hrefl Htrans o c (Ht & Hi & Hq).
  destruct (step_op_task env o c) as [Htask Hworld].
  pose proof (step_op_other env o c) as Hother.
  unfold kept_invariant. rewrite Hworld.
  destruct o; cbn [task other] in *; rewrite Htask, Hother.
  - split; [apply step_updates_within, Ht | split; [exact Hi |]].
    apply (Htrans _ _ _ Hq). apply step_card_within; assumption.
  - split; [exact Ht | split; [apply step_updates_within, Hi |]].
    apply (Htrans _ _ _ Hq). apply step_card_within; assumption.
Qed.

Lemma clearing_invariant_step (flag : CardData -> bool) (o : Op) :
  forall o' c, clearing_invariant env flag o c ->
               clearing_invariant env flag o (step_op env o' c).
Proof.
  intros o' c [(b & Hc & Hw) Hother].
  destruct (step_op_task env o' c) as [Htask Hworld].
  pose proof (step_op_other env o' c) as Hsame.
  unfold clearing_invariant. rewrite Hworld.
  destruct o, o'; cbn [task other] in *; rewrite Htask, Hsame.
  - split; [apply (step_clears flag env b _ _ Hc Hw) | exact Hother].
  - split; [| apply step_updates_within, Hother].
    exists b. split; [exact Hc |]. intro Hb.
    rewrite (step_card_within (fun c1 c2 => flag c2 = flag c1) env _ _
               (fun _ => eq_refl) Hother).
    apply Hw, Hb.
  - split; [| apply step_updates_within, Hother].
    exists b. split; [exact Hc |]. intro Hb.
    rewrite (step_card_within (fun c1 c2 => flag c2 = flag c1) env _ _
               (fun _ => eq_refl) Hother).
    apply Hw, Hb.
  - split; [apply (step_clears flag env b _ _ Hc Hw) | exact Hother].
Qed.

Lemma clearing_invariant_finished (flag : CardData -> bool) (o : Op) (c : Config) :
  clearing_invariant env flag o c -> finished (task o c) = true ->
  task o c = Ret tt /\ flag (card (world c)) = false.
Proof.
  intros [(b & Hc & Hw) _] Hfin.
  destruct (task o c) as [[] | e | X e k]; cbn in *; [| contradiction | discriminate].
  split; [reflexivity | apply Hw, Hc].
Qed.

End Invariants.

(** ** The claims on the busy flags and on the frame of each operation *)

Lemma same_outside_text_refl (c : CardData) : same_outside_text c c.
Proof. unfold same_outside_text. repeat split. Qed.

Lemma same_outside_image_refl (c : CardData) : same_outside_image c c.
Proof. unfold same_outside_image. repeat split. Qed.

Lemma same_outside_own_refl (o : Op) (c : CardData) : same_outside_own o c c.
Proof. destruct o; [apply same_outside_text_refl | apply same_outside_image_refl]. Qed.

Lemma same_outside_text_trans (c1 c2 c3 : CardData) :
  same_outside_text c1 c2 -> same_outside_text c2 c3 -> same_outside_text c1 c3.
Proof.
  unfold same_outside_text. intros (? & ? & ? & ? & ? & ?) (? & ? & ? & ? & ? & ?).
  repeat split; congruence.
Qed.

Lemma same_outside_image_trans (c1 c2 c3 : CardData) :
  same_outside_image c1 c2 -> same_outside_image c2 c3 -> same_outside_image c1 c3.
Proof.
  unfold same_outside_image. intros (? & ? & ? & ? & ? & ?) (? & ? & ? & ? & ? & ?).
  repeat split; congruence.
Qed.

Lemma same_shared_fields_refl (c : CardData) : same_shared_fields c c.
Proof. unfold same_shared_fields. repeat split. Qed.

Lemma same_shared_fields_trans (c1 c2 c3 : CardData) :
  same_shared_fields c1 c2 -> same_shared_fields c2 c3 -> same_shared_fields c1 c3.
Proof.
  unfold same_shared_fields. intros (? & ? & ? & ?) (? & ? & ? & ?).
  repeat split; congruence.
Qed.

Lemma both_invoked_frame (cardT cardI : CardData) (w : World) :
  frame_invariant same_outside_own (both_invoked cardT cardI w).
Proof.
  split; [apply handleGenerateText_updates | split; [apply handleGenerateImage_updates |]].
  constructor.
Qed.

Lemma both_invoked_kept (cardT cardI : CardData) (w : World) :
  kept_invariant same_shared_fields (card w) (both_invoked cardT cardI w).
Proof.
  split; [| split; [| apply same_shared_fields_refl]].
  - apply (updates_within_weaken same_outside_text); [| apply handleGenerateText_updates].
    unfold same_outside_text, same_shared_fields. intuition.
  - apply (updates_within_weaken same_outside_image); [| apply handleGenerateImage_updates].
    unfold same_outside_image, same_shared_fields. intuition.
Qed.

Lemma both_invoked_clearing_image
    (env : Env) (ai : Client) (cardT cardI : CardData) (w : World) :
  newGoogleGenAI env = Resolved ai ->
  clearing_invariant env isGeneratingImage ImageOp (both_invoked cardT cardI w).
Proof.
  intro Hai. split.
  - exists false. split; [apply (handleGenerateImage_clears env ai _ Hai) | discriminate].
  - apply (updates_within_weaken same_outside_text); [| apply handleGenerateText_updates].
    unfold same_outside_text. intuition.
Qed.

Lemma both_invoked_clearing_text
    (env : Env) (ai : Client) (cardT cardI : CardData) (w : World) :
  newGoogleGenAI env = Resolved ai ->
  recipient cardT <> [] -> sender cardT <> [] ->
  clearing_invariant env isGeneratingMessage TextOp (both_invoked cardT cardI w).
Proof.
  intros Hai Hr Hs. split.
  - exists false.
    split; [apply (handleGenerateText_clears env ai _ Hai); assumption | discriminate].
  - apply (updates_within_weaken same_outside_image); [| apply handleGenerateImage_updates].
    unfold same_outside_image. intuition.
Qed.

Lemma run_settles_normally (env : Env) (flag : CardData -> bool) (p : Prog unit) (w : World) :
  clears env flag false p ->
  fst (run env p w) = Normal tt /\ flag (card (snd (run env p w))) = false.
Proof.
  intro Hc. destruct (run_clears flag env false p w Hc) as [[[] Hn] Hf]; [discriminate |].
  split; assumption.
Qed.

Lemma run_handleGenerateText_no_client
    (env : Env) (w : World) (c : CardData) (e0 : Error) :
  newGoogleGenAI env = Rejected e0 ->
  recipient c <> [] -> sender c <> [] ->
  run env (handleGenerateText c) w
  = (Thrown e0, apply_setCard (spread_isGeneratingMessage true) w).
Proof.
  intros Hno Hr Hs.
  rewrite (run_handleGenerateText env w c Hr Hs), run_generateWishAI, Hno.
  reflexivity.
Qed.

Lemma run_handleGenerateImage_no_client
    (env : Env) (w : World) (c : CardData) (e0 : Error) :
  newGoogleGenAI env = Rejected e0 ->
  run env (handleGenerateImage c) w
  = (Thrown e0, apply_setCard (spread_isGeneratingImage true) w).
Proof.
  intro Hno. rewrite run_handleGenerateImage, run_generateCardImageAI, Hno.
  reflexivity.
Qed.

(** C4 against the code: [getAI()] is called before the [try] of each
    service function and the handlers have no [finally], so when it throws,
    a text generation that passed the guard rejects with that value and
    leaves [isGeneratingMessage] true, and an image generation rejects and
    leaves [isGeneratingImage] true: a path on which the busy flag is
    stuck. *)
Theorem busy_flag_stuck_when_getAI_throws
    (env : Env) (w : World) (cardT cardI : CardData) (e0 : Error) :
  newGoogleGenAI env = Rejected e0 ->
  (recipient cardT <> [] -> sender cardT <> [] ->
   fst (run env (handleGenerateText cardT) w) = Thrown e0
   /\ isGeneratingMessage (card (snd (run env (handleGenerateText cardT) w))) = true)
  /\ (fst (run env (handleGenerateImage cardI) w) = Thrown e0
      /\ isGeneratingImage (card (snd (run env (handleGenerateImage cardI) w))) = true).
Proof.
  intro Hno. split.
  - intros Hr Hs. rewrite (run_handleGenerateText_no_client env w cardT e0 Hno Hr Hs).
    split; reflexivity.
  - rewrite (run_handleGenerateImage_no_client env w cardI e0 Hno). split; reflexivity.
Qed.

Lemma busy_flag_stuck_when_getAI_throws_witness :
  isGeneratingMessage
    (card (snd (run no_client_env (handleGenerateText (sample_card (lit "Ann") (lit "Bob")))
                    initial_world))) = true.
Proof.
  apply (proj1 (busy_flag_stuck_when_getAI_throws no_client_env initial_world
                  (sample_card (lit "Ann") (lit "Bob")) INITIAL_CARD
                  (lit "ReferenceError: process is not defined") eq_refl));
    discriminate.
Defined.

(** X25: once [getAI()] has returned the client, whatever the request
    settles with, a text generation that passed the guard settles normally
    with [isGeneratingMessage] false, and an image generation settles
    normally with [isGeneratingImage] false; this holds for each handler
    run alone and for every interleaving of the two.  A text generation
    stopped by the guard leaves its flag as it found it. *)
Theorem busy_flags_cleared_when_client_built
    (env : Env) (ai : Client) (w : World) (cardT cardI : CardData)
    (schedule : list Op) :
  newGoogleGenAI env = Resolved ai ->
  (recipient cardT <> [] -> sender cardT <> [] ->
   fst (run env (handleGenerateText cardT) w) = Normal tt
   /\ isGeneratingMessage (card (snd (run env (handleGenerateText cardT) w))) = false)
  /\ (recipient cardT = [] \/ sender cardT = [] ->
      fst (run env (handleGenerateText cardT) w) = Normal tt
      /\ isGeneratingMessage (card (snd (run env (handleGenerateText cardT) w)))
         = isGeneratingMessage (card w))
  /\ (fst (run env (handleGenerateImage cardI) w) = Normal tt
      /\ isGeneratingImage (card (snd (run env (handleGenerateImage cardI) w))) = false)
  /\ (imageTask (settle_both env schedule (both_invoked cardT cardI w)) = Ret tt
      /\ isGeneratingImage
           (card (world (settle_both env schedule (both_invoked cardT cardI w)))) = false)
  /\ (recipient cardT <> [] -> sender cardT <> [] ->
      textTask (settle_both env schedule (both_invoked cardT cardI w)) = Ret tt
      /\ isGeneratingMessage
           (card (world (settle_both env schedule (both_invoked cardT cardI w)))) = false).
Proof.
  intro Hai.
  destruct (settle_both_schedule env schedule (both_invoked cardT cardI w))
    as (n & m & _ & Hft & Hfi).
  split; [| split; [| split; [| split]]].
  - intros Hr Hs.
    apply run_settles_normally, (handleGenerateText_clears env ai _ Hai); assumption.
  - intro Hempty. rewrite (run_handleGenerateText_guard env w cardT Hempty).
    split; reflexivity.
  - apply run_settles_normally, (handleGenerateImage_clears env ai _ Hai).
  - apply (clearing_invariant_finished env isGeneratingImage ImageOp); [| exact Hfi].
    apply settle_both_invariant; [apply clearing_invariant_step |].
    apply (both_invoked_clearing_image env ai _ _ _ Hai).
  - intros Hr Hs.
    apply (clearing_invariant_finished env isGeneratingMessage TextOp); [| exact Hft].
    apply settle_both_invariant; [apply clearing_invariant_step |].
    apply (both_invoked_clearing_text env ai _ _ _ Hai); assumption.
Qed.

Lemma busy_flags_cleared_when_client_built_witness :
  isGeneratingMessage
    (card (world (settle_both (sample_env (Rejected (lit "503"))) sample_schedule
                    (both_invoked (sample_card (lit "Ann") (lit "Bob"))
                                  (sample_card (lit "Ann") (lit "Bob"))
                                  initial_world)))) = false.
Proof.
  apply (busy_flags_cleared_when_client_built (sample_env (Rejected (lit "503")))
           (GoogleGenAI []) initial_world
           (sample_card (lit "Ann") (lit "Bob")) (sample_card (lit "Ann") (lit "Bob"))
           sample_schedule); [reflexivity | discriminate | discriminate].
Defined.

(** C8: a text generation run to settlement leaves every field of the card
    but [message] and [isGeneratingMessage] as it was, an image generation
    every field but [imageUrl] and [isGeneratingImage]; and in every
    interleaving of one operation of each kind both settle, every step
    taken by an operation leaves the fields outside its own pair as they
    were just before it (so neither ever writes the other's busy flag), and
    the fields neither owns end as they started. *)
Theorem generation_frame
    (env : Env) (w : World) (cardT cardI : CardData) (schedule : list Op) :
  same_outside_text (card w) (card (snd (run env (handleGenerateText cardT) w)))
  /\ same_outside_image (card w) (card (snd (run env (handleGenerateImage cardI) w)))
  /\ trace_within same_outside_own
       (trace (settle_both env schedule (both_invoked cardT cardI w)))
  /\ finished (textTask (settle_both env schedule (both_invoked cardT cardI w))) = true
  /\ finished (imageTask (settle_both env schedule (both_invoked cardT cardI w))) = true
  /\ same_shared_fields (card w)
       (card (world (settle_both env schedule (both_invoked cardT cardI w)))).
Proof.
  destruct (settle_both_schedule env schedule (both_invoked cardT cardI w))
    as (n & m & _ & Hft & Hfi).
  split; [| split; [| split; [| split; [| split]]]]; try assumption.
  - apply run_card_within;
      [apply same_outside_text_refl | apply same_outside_text_trans
      | apply handleGenerateText_updates].
  - apply run_card_within;
      [apply same_outside_image_refl | apply same_outside_image_trans
      | apply handleGenerateImage_updates].
  - apply (settle_both_invariant env (frame_invariant same_outside_own));
      [apply frame_invariant_step, same_outside_own_refl | apply both_invoked_frame].
  - apply (settle_both_invariant env (kept_invariant same_shared_fields (card w)));
      [apply kept_invariant_step;
         [apply same_shared_fields_refl | apply same_shared_fields_trans]
      | apply both_invoked_kept].
Qed.

(** ** The two copies of the wish service *)

Lemma run_generateWish (env : Env) (r s : jsstring) (t : CardTone) (w : World) :
  run env (Gemini.generateWish r s t) w =
  match newGoogleGenAI env with
  | Rejected e0 => (Thrown e0, w)
  | Resolved _ =>
      match generateContent env (wish_request r s t) with
      | Resolved response =>
          (Normal (or_else_opt (text response) (lit "May your days be merry and bright!")),
           log_request (wish_request r s t) w)
      | Rejected e =>
          (Normal FAILURE_FALLBACK,
           log_consoleError (lit "Error generating wish:") e
             (log_request (wish_request r s t) w))
      end
  end.
Proof.
  unfold Gemini.generateWish, Gemini.getAI. change (await NewGoogleGenAI) with getAI.
  rewrite run_getAI_bind.
  destruct (newGoogleGenAI env) as [ai | e0]; [| reflexivity].
  rewrite run_try_catch. unfold await. simpl.
  destruct (generateContent env (wish_request r s t)); reflexivity.
Qed.

(** C9 as stated fails: on an empty result the two copies return different
    fallback strings. *)
Lemma wish_services_differ_on_empty_result :
  fst (run empty_result_env (generateWishAI (lit "Ann") (lit "Bob") Heartfelt)
           initial_world)
  <> fst (run empty_result_env (Gemini.generateWish (lit "Ann") (lit "Bob") Heartfelt)
              initial_world).
Proof.
  vm_compute. discriminate.
Qed.

(** C9 (as amended): [generateWishAI] of the application and [generateWish]
    of the services module issue the same request and agree, in what they
    return and in what they log, whenever the request is rejected or
    resolves with a non-empty text (and also when [getAI()] throws, which
    both pass on); when the request, issued once [getAI()] has returned the
    client, resolves with an undefined or empty text they leave the same
    log but return different strings, the application its empty-result
    fallback and the services module [May your days be merry and
    bright!]. *)
Theorem wish_services_agree_unless_empty
    (env : Env) (w : World) (r s : jsstring) (t : CardTone) :
  (forall e, generateContent env (wish_request r s t) = Rejected e ->
     run env (generateWishAI r s t) w = run env (Gemini.generateWish r s t) w)
  /\ (forall response wish,
        generateContent env (wish_request r s t) = Resolved response ->
        text response = Some wish -> wish <> [] ->
        run env (generateWishAI r s t) w = run env (Gemini.generateWish r s t) w
        /\ forall ai, newGoogleGenAI env = Resolved ai ->
             fst (run env (generateWishAI r s t) w) = Normal wish)
  /\ (forall response,
        generateContent env (wish_request r s t) = Resolved response ->
        text response = None \/ text response = Some [] ->
        snd (run env (generateWishAI r s t) w)
        = snd (run env (Gemini.generateWish r s t) w)
        /\ forall ai, newGoogleGenAI env = Resolved ai ->
             fst (run env (generateWishAI r s t) w)
             = Normal (lit "May your holiday be filled with magic and your new year with dreams coming true.")
             /\ fst (run env (Gemini.generateWish r s t) w)
                = Normal (lit "May your days be merry and bright!"))
  /\ (forall e0, newGoogleGenAI env = Rejected e0 ->
        run env (generateWishAI r s t) w = (Thrown e0, w)
        /\ run env (Gemini.generateWish r s t) w = (Thrown e0, w)).
Proof.
  rewrite run_generateWishAI, run_generateWish. split; [| split; [| split]].
  - intros e ->. reflexivity.
  - intros response wish -> Htext Hne. rewrite Htext.
    destruct wish as [| c wish]; [congruence |].
    split; [reflexivity | intros ai ->; reflexivity].
  - intros response -> Hfalsy. split.
    + destruct (newGoogleGenAI env); [| reflexivity].
      destruct Hfalsy as [-> | ->]; reflexivity.
    + intros ai ->. destruct Hfalsy as [-> | ->]; split; reflexivity.
  - intros e0 ->. split; reflexivity.
Qed.

Lemma wish_services_agree_unless_empty_witness :
  run joy_env (generateWishAI (lit "Ann") (lit "Bob") Heartfelt) initial_world
  = run joy_env (Gemini.generateWish (lit "Ann") (lit "Bob") Heartfelt) initial_world.
Proof.
  apply (wish_services_agree_unless_empty joy_env initial_world (lit "Ann") (lit "Bob") Heartfelt)
    with (response := {| text := Some (lit "Joy!"); candidates := None |})
         (wish := lit "Joy!");
    [reflexivity | reflexivity | discriminate].
Defined.

(** * Further properties of the handlers *)

(** ** Text generation, seen whole *)

Lemma run_handleGenerateText_world
    (env : Env) (ai : Client) (w : World) (c : CardData) :
  newGoogleGenAI env = Resolved ai ->
  recipient c <> [] -> sender c <> [] ->
  run env (handleGenerateText c) w =
  (Normal tt,
   close_menu_if_narrow env
     (apply_setCard
        (spread_message
           (wish_of (generateContent env (wish_request (recipient c) (sender c) (tone c))))
           false)
        (log_failure (lit "Error generating wish:")
           (generateContent env (wish_request (recipient c) (sender c) (tone c)))
           (log_request (wish_request (recipient c) (sender c) (tone c))
              (apply_setCard (spread_isGeneratingMessage true) w))))).
Proof.
  intros Hai Hr Hs.
  rewrite (run_handleGenerateText env w c Hr Hs), run_generateWishAI, Hai.
  destruct (generateContent env _); reflexivity.
Qed.

Lemma close_menu_if_narrow_fields (env : Env) (w : World) :
  card (close_menu_if_narrow env w) = card w
  /\ cardUpdates (close_menu_if_narrow env w) = cardUpdates w
  /\ requests (close_menu_if_narrow env w) = requests w
  /\ alerts (close_menu_if_narrow env w) = alerts w
  /\ consoleErrors (close_menu_if_narrow env w) = consoleErrors w
  /\ downloads (close_menu_if_narrow env w) = downloads w.
Proof.
  unfold close_menu_if_narrow. destruct (innerWidth env <? 1024)%Z; repeat split.
Qed.

Lemma log_failure_fields (label : jsstring) {X : Type} (o : Outcome X) (w : World) :
  card (log_failure label o w) = card w
  /\ cardUpdates (log_failure label o w) = cardUpdates w
  /\ requests (log_failure label o w) = requests w
  /\ alerts (log_failure label o w) = alerts w
  /\ isMobileMenuOpen (log_failure label o w) = isMobileMenuOpen w.
Proof.
  destruct o; repeat split.
Qed.

Lemma wish_of_nonempty (o : Outcome Response) : wish_of o <> [].
Proof.
  destruct o as [response | e]; [| discriminate]. cbn [wish_of].
  destruct (text response) as [[| ch wish] |]; discriminate.
Qed.

Ltac world_fields :=
  repeat first
    [ rewrite (proj1 (close_menu_if_narrow_fields _ _))
    | rewrite (proj1 (proj2 (close_menu_if_narrow_fields _ _)))
    | rewrite (proj1 (proj2 (proj2 (close_menu_if_narrow_fields _ _))))
    | rewrite (proj1 (proj2 (proj2 (proj2 (close_menu_if_narrow_fields _ _)))))
    | rewrite (proj1 (proj2 (proj2 (proj2 (proj2 (close_menu_if_narrow_fields _ _))))))
    | rewrite (proj1 (log_failure_fields _ _ _))
    | rewrite (proj1 (proj2 (log_failure_fields _ _ _)))
    | rewrite (proj1 (proj2 (proj2 (log_failure_fields _ _ _))))
    | rewrite (proj1 (proj2 (proj2 (proj2 (log_failure_fields _ _ _)))))
    | rewrite (proj2 (proj2 (proj2 (proj2 (log_failure_fields _ _ _)))))
    | progress cbn [snd fst apply_setCard log_request card cardUpdates requests alerts
                    consoleErrors isMobileMenuOpen] ].

Lemma data_uri_truthy_bool (b : Blob) : truthy (data_uri b) = true.
Proof. reflexivity. Qed.

(** X1: when the wish request (issued once [getAI()] has returned the
    client) resolves with a non-empty text, a text generation that passed
    the guard stores exactly that text in [message]. *)
Theorem text_generation_stores_wish
    (env : Env) (ai : Client) (w : World) (c : CardData)
    (response : Response) (wish : jsstring) :
  newGoogleGenAI env = Resolved ai ->
  recipient c <> [] -> sender c <> [] ->
  generateContent env (wish_request (recipient c) (sender c) (tone c))
  = Resolved response ->
  text response = Some wish -> wish <> [] ->
  message (card (snd (run env (handleGenerateText c) w))) = wish.
Proof.
  intros Hai Hr Hs Hres Htext Hne.
  rewrite (run_handleGenerateText_world env ai w c Hai Hr Hs), Hres. world_fields.
  cbn [wish_of spread_message message]. rewrite Htext.
  destruct wish; [congruence | reflexivity].
Qed.

Lemma text_generation_stores_wish_witness :
  message (card (snd (run joy_env (handleGenerateText (sample_card (lit "Ann") (lit "Bob"))) initial_world)))
  = lit "Joy!".
Proof.
  apply (text_generation_stores_wish joy_env (GoogleGenAI []) initial_world (sample_card (lit "Ann") (lit "Bob"))
           {| text := Some (lit "Joy!"); candidates := None |} (lit "Joy!"));
    [reflexivity | discriminate | discriminate | reflexivity | reflexivity | discriminate].
Defined.

(** X2: however the request (issued once [getAI()] has returned the
    client) settles, a text generation that passed the guard ends with a
    non-empty [message]. *)
Theorem text_generation_message_nonempty
    (env : Env) (ai : Client) (w : World) (c : CardData) :
  newGoogleGenAI env = Resolved ai ->
  recipient c <> [] -> sender c <> [] ->
  message (card (snd (run env (handleGenerateText c) w))) <> [].
Proof.
  intros Hai Hr Hs. rewrite (run_handleGenerateText_world env ai w c Hai Hr Hs).
  world_fields. cbn [spread_message message]. apply wish_of_nonempty.
Qed.

Lemma text_generation_message_nonempty_witness :
  message (card (snd (run empty_result_env (handleGenerateText (sample_card (lit "Ann") (lit "Bob"))) initial_world)))
  <> [].
Proof.
  apply (text_generation_message_nonempty empty_result_env (GoogleGenAI [])
           initial_world (sample_card (lit "Ann") (lit "Bob")));
    [reflexivity | discriminate | discriminate].
Defined.

(** X3: a text generation that passed the guard issues exactly one request
    when [getAI()] returns the client, whatever the busy flags are and
    however the request settles (no retry), built from the names and the
    tone of the card the handler closed over; when [getAI()] throws it
    issues none. *)
Theorem text_generation_single_request (env : Env) (w : World) (c : CardData) :
  recipient c <> [] -> sender c <> [] ->
  requests (snd (run env (handleGenerateText c) w))
  = match newGoogleGenAI env with
    | Resolved _ => wish_request (recipient c) (sender c) (tone c) :: requests w
    | Rejected _ => requests w
    end.
Proof.
  intros Hr Hs. destruct (newGoogleGenAI env) as [ai | e0] eqn:Hai.
  - rewrite (run_handleGenerateText_world env ai w c Hai Hr Hs). world_fields.
    reflexivity.
  - rewrite (run_handleGenerateText_no_client env w c e0 Hai Hr Hs). reflexivity.
Qed.

Lemma text_generation_single_request_witness :
  requests (snd (run (sample_env (Rejected (lit "503"))) (handleGenerateText (sample_card (lit "Ann") (lit "Bob")))
                     initial_world))
  = [wish_request (lit "Ann") (lit "Bob") Heartfelt].
Proof.
  apply (text_generation_single_request (sample_env (Rejected (lit "503")))
           initial_world (sample_card (lit "Ann") (lit "Bob"))); discriminate.
Defined.

(** X4: a text generation that passed the guard first sets
    [isGeneratingMessage] and nothing else.  When [getAI()] returns the
    client it then settles normally after exactly one more card update,
    which stores the wish and clears the flag; when [getAI()] throws, the
    handler rejects with that value and the first update is the only
    one. *)
Theorem text_generation_flag_lifecycle (env : Env) (w : World) (c : CardData) :
  recipient c <> [] -> sender c <> [] ->
  match newGoogleGenAI env with
  | Resolved _ =>
      fst (run env (handleGenerateText c) w) = Normal tt
      /\ cardUpdates (snd (run env (handleGenerateText c) w))
         = spread_message
             (wish_of (generateContent env
                         (wish_request (recipient c) (sender c) (tone c))))
             false (card w)
           :: spread_isGeneratingMessage true (card w)
           :: cardUpdates w
  | Rejected e0 =>
      fst (run env (handleGenerateText c) w) = Thrown e0
      /\ cardUpdates (snd (run env (handleGenerateText c) w))
         = spread_isGeneratingMessage true (card w) :: cardUpdates w
  end.
Proof.
  intros Hr Hs. destruct (newGoogleGenAI env) as [ai | e0] eqn:Hai.
  - rewrite (run_handleGenerateText_world env ai w c Hai Hr Hs).
    split; [reflexivity |]. world_fields. reflexivity.
  - rewrite (run_handleGenerateText_no_client env w c e0 Hai Hr Hs).
    split; reflexivity.
Qed.

Lemma text_generation_flag_lifecycle_witness :
  fst (run no_client_env (handleGenerateText (sample_card (lit "Ann") (lit "Bob"))) initial_world)
  = Thrown (lit "ReferenceError: process is not defined")
  /\ cardUpdates (snd (run no_client_env (handleGenerateText (sample_card (lit "Ann") (lit "Bob"))) initial_world))
     = [spread_isGeneratingMessage true INITIAL_CARD].
Proof.
  apply (text_generation_flag_lifecycle no_client_env initial_world (sample_card (lit "Ann") (lit "Bob"))); discriminate.
Defined.

(** X5: a text generation that passed the guard never raises an alert; it
    writes one line to the console, with the thrown value, when the request
    was rejected, and none otherwise (none, too, when [getAI()] throws and
    no request is made). *)
Theorem text_generation_diagnostics (env : Env) (w : World) (c : CardData) :
  recipient c <> [] -> sender c <> [] ->
  alerts (snd (run env (handleGenerateText c) w)) = alerts w
  /\ consoleErrors (snd (run env (handleGenerateText c) w))
     = match newGoogleGenAI env with
       | Resolved _ =>
           match generateContent env
                   (wish_request (recipient c) (sender c) (tone c)) with
           | Resolved _ => consoleErrors w
           | Rejected e => (lit "Error generating wish:", e) :: consoleErrors w
           end
       | Rejected _ => consoleErrors w
       end.
Proof.
  intros Hr Hs. destruct (newGoogleGenAI env) as [ai | e0] eqn:Hai.
  - rewrite (run_handleGenerateText_world env ai w c Hai Hr Hs). split.
    + world_fields. reflexivity.
    + world_fields. destruct (generateContent env _); reflexivity.
  - rewrite (run_handleGenerateText_no_client env w c e0 Hai Hr Hs).
    split; reflexivity.
Qed.

Lemma text_generation_diagnostics_witness :
  consoleErrors (snd (run (sample_env (Rejected (lit "503"))) (handleGenerateText (sample_card (lit "Ann") (lit "Bob")))
                          initial_world))
  = [(lit "Error generating wish:", lit "503")].
Proof.
  apply (text_generation_diagnostics (sample_env (Rejected (lit "503")))
           initial_world (sample_card (lit "Ann") (lit "Bob"))); discriminate.
Defined.

(** X6: after a text generation that passed the guard and whose [getAI()]
    returned the client, the mobile menu is closed when the window is
    narrower than 1024 and left as it was otherwise; when [getAI()] throws,
    the handler rejects before it looks at the window and the menu is left
    as it was; a generation stopped by the guard leaves the menu alone. *)
Theorem text_generation_menu (env : Env) (w : World) (c : CardData) :
  (recipient c <> [] -> sender c <> [] ->
   isMobileMenuOpen (snd (run env (handleGenerateText c) w))
   = match newGoogleGenAI env with
     | Resolved _ => if (innerWidth env <? 1024)%Z then false else isMobileMenuOpen w
     | Rejected _ => isMobileMenuOpen w
     end)
  /\ (recipient c = [] \/ sender c = [] ->
      isMobileMenuOpen (snd (run env (handleGenerateText c) w)) = isMobileMenuOpen w).
Proof.
  split.
  - intros Hr Hs. destruct (newGoogleGenAI env) as [ai | e0] eqn:Hai.
    + rewrite (run_handleGenerateText_world env ai w c Hai Hr Hs). cbn [snd].
      unfold close_menu_if_narrow. destruct (innerWidth env <? 1024)%Z; [reflexivity |].
      world_fields. reflexivity.
    + rewrite (run_handleGenerateText_no_client env w c e0 Hai Hr Hs). reflexivity.
  - intro Hempty. rewrite (run_handleGenerateText_guard env w c Hempty). reflexivity.
Qed.

Lemma text_generation_menu_witness :
  isMobileMenuOpen (snd (run capture_failed_env (handleGenerateText (sample_card (lit "Ann") (lit "Bob")))
                             (apply_setIsMobileMenuOpen true initial_world)))
  = false.
Proof.
  apply (proj1 (text_generation_menu capture_failed_env
                  (apply_setIsMobileMenuOpen true initial_world) (sample_card (lit "Ann") (lit "Bob"))));
    discriminate.
Defined.

(** ** Image generation, seen whole *)

Lemma run_handleGenerateImage_world
    (env : Env) (ai : Client) (w : World) (c : CardData) :
  newGoogleGenAI env = Resolved ai ->
  run env (handleGenerateImage c) w =
  (Normal tt,
   settle_image (image_of (generateContent env (image_request (tone c))))
     (log_failure (lit "Error generating image:")
        (generateContent env (image_request (tone c)))
        (log_request (image_request (tone c))
           (apply_setCard (spread_isGeneratingImage true) w)))).
Proof.
  intro Hai. rewrite run_handleGenerateImage, run_generateCardImageAI, Hai.
  destruct (generateContent env _); reflexivity.
Qed.

Lemma settle_image_fields (img : option jsstring) (w : World) :
  requests (settle_image img w) = requests w
  /\ alerts (settle_image img w) = alerts w
  /\ consoleErrors (settle_image img w) = consoleErrors w
  /\ isMobileMenuOpen (settle_image img w) = isMobileMenuOpen w
  /\ downloads (settle_image img w) = downloads w.
Proof.
  unfold settle_image. destruct (narrow img); repeat split.
Qed.

Lemma first_inline_image_none_inv (ps : list Part) :
  first_inline_image ps = None -> forall q, In q ps -> inlineData q = None.
Proof.
  intros Hnone q Hq. destruct (inlineData q) as [b |] eqn:Hb; [| reflexivity].
  exfalso. apply (first_inline_image_found ps q Hq); [rewrite Hb; discriminate | exact Hnone].
Qed.

(** X7: for any card (the names are not checked) an image generation
    issues exactly one request, built from the tone alone, when [getAI()]
    returns the client, and none when [getAI()] throws; it never raises an
    alert, and writes one line to the console exactly when a request was
    made and rejected. *)
Theorem image_generation_single_request (env : Env) (w : World) (c : CardData) :
  requests (snd (run env (handleGenerateImage c) w))
  = match newGoogleGenAI env with
    | Resolved _ => image_request (tone c) :: requests w
    | Rejected _ => requests w
    end
  /\ alerts (snd (run env (handleGenerateImage c) w)) = alerts w
  /\ consoleErrors (snd (run env (handleGenerateImage c) w))
     = match newGoogleGenAI env with
       | Resolved _ =>
           match generateContent env (image_request (tone c)) with
           | Resolved _ => consoleErrors w
           | Rejected e => (lit "Error generating image:", e) :: consoleErrors w
           end
       | Rejected _ => consoleErrors w
       end.
Proof.
  destruct (newGoogleGenAI env) as [ai | e0] eqn:Hai.
  - rewrite (run_handleGenerateImage_world env ai w c Hai). cbn [snd].
    destruct (settle_image_fields
                (image_of (generateContent env (image_request (tone c))))
                (log_failure (lit "Error generating image:")
                   (generateContent env (image_request (tone c)))
                   (log_request (image_request (tone c))
                      (apply_setCard (spread_isGeneratingImage true) w))))
      as (-> & -> & -> & _).
    repeat split.
    + world_fields. reflexivity.
    + world_fields. reflexivity.
    + destruct (generateContent env _); reflexivity.
  - rewrite (run_handleGenerateImage_no_client env w c e0 Hai). repeat split.
Qed.

(** X8: after an image generation [imageUrl] is either what it was, or the
    request resolved and [imageUrl] is the data URI of the first part of
    that response that carries inline data; an image that was there is
    never replaced by an empty one. *)
Theorem image_generation_url_kept_or_data_uri (env : Env) (w : World) (c : CardData) :
  (imageUrl (card (snd (run env (handleGenerateImage c) w))) = imageUrl (card w)
   \/ exists response before part blob rest,
        generateContent env (image_request (tone c)) = Resolved response
        /\ response_parts response = before ++ part :: rest
        /\ (forall q, In q before -> inlineData q = None)
        /\ inlineData part = Some blob
        /\ imageUrl (card (snd (run env (handleGenerateImage c) w))) = data_uri blob)
  /\ (imageUrl (card w) <> [] ->
      imageUrl (card (snd (run env (handleGenerateImage c) w))) <> []).
Proof.
  destruct (newGoogleGenAI env) as [ai | e0] eqn:Hai.
  - rewrite (run_handleGenerateImage_world env ai w c Hai). cbn [snd].
    unfold settle_image.
    destruct (generateContent env (image_request (tone c))) as [response | e];
      cbn [image_of log_failure].
    + destruct (first_inline_image (response_parts response)) as [url |] eqn:Himg;
        cbn [narrow].
      * destruct (first_inline_image_some _ _ Himg)
          as (before & part & blob & rest & Hsplit & Hbefore & Hpart & ->).
        rewrite data_uri_truthy_bool.
        cbn [apply_setCard card spread_imageUrl imageUrl]. split.
        -- right. exists response, before, part, blob, rest. repeat split; assumption.
        -- intros _. discriminate.
      * cbn [apply_setCard card spread_isGeneratingImage imageUrl log_request
               spread_isGeneratingImage].
        split; [left; reflexivity | auto].
    + cbn [narrow apply_setCard card spread_isGeneratingImage imageUrl log_request
             log_consoleError].
      split; [left; reflexivity | auto].
  - rewrite (run_handleGenerateImage_no_client env w c e0 Hai). cbn.
    split; [left; reflexivity | auto].
Qed.

Lemma image_generation_url_kept_or_data_uri_witness :
  imageUrl (card (snd (run (sample_env (Resolved png_response))
                          (handleGenerateImage INITIAL_CARD) initial_world)))
  <> [].
Proof.
  apply (proj2 (image_generation_url_kept_or_data_uri (sample_env (Resolved png_response))
                  initial_world INITIAL_CARD)).
  discriminate.
Defined.

(** X9: the image service function returns null exactly when [getAI()]
    returned the client and the request was rejected or resolved with no
    part that carries inline data. *)
Theorem image_service_null_iff (env : Env) (w : World) (t : CardTone) :
  fst (run env (generateCardImageAI t) w) = Normal None
  <-> (exists ai, newGoogleGenAI env = Resolved ai)
      /\ ((exists e, generateContent env (image_request t) = Rejected e)
          \/ (exists response,
                generateContent env (image_request t) = Resolved response
                /\ forall q, In q (response_parts response) -> inlineData q = None)).
Proof.
  rewrite run_generateCardImageAI.
  destruct (newGoogleGenAI env) as [ai | e0];
    [| split; [discriminate | intros [[ai Hai] _]; discriminate]].
  destruct (generateContent env (image_request t)) as [response | e]; cbn [fst].
  - split.
    + intro H. split; [exists ai; reflexivity |]. right. exists response.
      split; [reflexivity |]. apply first_inline_image_none_inv. congruence.
    + intros [_ [[e He] | (r & Hr & Hnone)]]; [discriminate |].
      injection Hr as <-. rewrite (first_inline_image_none _ Hnone). reflexivity.
  - split; [| reflexivity].
    intros _. split; [exists ai; reflexivity | left; exists e; reflexivity].
Qed.

Lemma image_service_null_iff_witness :
  fst (run (sample_env (Rejected (lit "503"))) (generateCardImageAI Funny) initial_world)
  = Normal None.
Proof.
  apply (proj2 (image_service_null_iff (sample_env (Rejected (lit "503")))
                  initial_world Funny)).
  split; [exists (GoogleGenAI []); reflexivity |].
  left. exists (lit "503"). reflexivity.
Defined.

(** ** Export *)

(** X10: without a card element the export does nothing at all: no busy
    flag, no capture, no download, no notice. *)
Theorem downloadPNG_without_element (env : Env) (w : World) (c : CardData) :
  cardRef env = None -> run env (downloadPNG c) w = (Normal tt, w).
Proof.
  intro Href. unfold downloadPNG. cbn [bind trigger run handle]. rewrite Href.
  reflexivity.
Qed.

Lemma downloadPNG_without_element_witness :
  run no_element_env (downloadPNG INITIAL_CARD) initial_world = (Normal tt, initial_world).
Proof.
  apply (downloadPNG_without_element no_element_env initial_world INITIAL_CARD).
  reflexivity.
Defined.

(** X11: when the capture (pixel ratio 3, white background, cache bust)
    resolves, the export hands the browser exactly one file, the captured
    data URL under the derived name, raises no notice, and ends with the
    download flag cleared. *)
Theorem downloadPNG_captured
    (env : Env) (w : World) (c : CardData) (node : Node) (dataUrl : jsstring) :
  cardRef env = Some node ->
  toPng env (Some node) PNG_OPTIONS = Resolved dataUrl ->
  run env (downloadPNG c) w
  = (Normal tt,
     apply_setIsDownloading false
       (log_download (download_name (recipient c)) dataUrl
          (apply_setIsDownloading true w))).
Proof.
  intros Href Hpng. unfold downloadPNG, await.
  cbn [bind trigger try_catch try_finally run handle]. rewrite Href.
  cbn [bind trigger try_catch try_finally run handle]. rewrite Href.
  fold PNG_OPTIONS. rewrite Hpng. reflexivity.
Qed.

Lemma downloadPNG_captured_witness :
  run (sample_env (Rejected [])) (downloadPNG (sample_card (lit "Jo Ann") (lit "Bob")))
      initial_world
  = (Normal tt,
     apply_setIsDownloading false
       (log_download (lit "christmas-card-Jo_Ann.png") (lit "data:image/png;base64,AAAA")
          (apply_setIsDownloading true initial_world))).
Proof.
  apply (downloadPNG_captured (sample_env (Rejected [])) initial_world
           (sample_card (lit "Jo Ann") (lit "Bob")) 1%N (lit "data:image/png;base64,AAAA"));
    reflexivity.
Defined.

(** X12: when the capture is rejected, the export catches it: it logs the
    error, raises the notice that suggests a screenshot, downloads nothing,
    clears the download flag and settles normally. *)
Theorem downloadPNG_capture_failed
    (env : Env) (w : World) (c : CardData) (node : Node) (err : Error) :
  cardRef env = Some node ->
  toPng env (Some node) PNG_OPTIONS = Rejected err ->
  run env (downloadPNG c) w
  = (Normal tt,
     apply_setIsDownloading false
       (log_alert DOWNLOAD_FAILED_NOTICE
          (log_consoleError (lit "Download failed:") err
             (apply_setIsDownloading true w)))).
Proof.
  intros Href Hpng. unfold downloadPNG, await.
  cbn [bind trigger try_catch try_finally run handle]. rewrite Href.
  cbn [bind trigger try_catch try_finally run handle]. rewrite Href.
  fold PNG_OPTIONS. rewrite Hpng. reflexivity.
Qed.

Lemma downloadPNG_capture_failed_witness :
  run capture_failed_env (downloadPNG INITIAL_CARD) initial_world
  = (Normal tt,
     apply_setIsDownloading false
       (log_alert DOWNLOAD_FAILED_NOTICE
          (log_consoleError (lit "Download failed:") (lit "tainted canvas")
             (apply_setIsDownloading true initial_world)))).
Proof.
  apply (downloadPNG_capture_failed capture_failed_env initial_world INITIAL_CARD
           1%N (lit "tainted canvas")); reflexivity.
Defined.

(** X13: the export always settles normally; it never changes the card,
    issues no request and leaves the menu alone; with a card element the
    download flag ends false whatever the capture does, and without one it
    is not touched. *)
Theorem downloadPNG_frame (env : Env) (w : World) (c : CardData) :
  fst (run env (downloadPNG c) w) = Normal tt
  /\ card (snd (run env (downloadPNG c) w)) = card w
  /\ cardUpdates (snd (run env (downloadPNG c) w)) = cardUpdates w
  /\ requests (snd (run env (downloadPNG c) w)) = requests w
  /\ isMobileMenuOpen (snd (run env (downloadPNG c) w)) = isMobileMenuOpen w
  /\ (cardRef env <> None -> isDownloading (snd (run env (downloadPNG c) w)) = false)
  /\ (cardRef env = None ->
      isDownloading (snd (run env (downloadPNG c) w)) = isDownloading w).
Proof.
  unfold downloadPNG, await.
  cbn [bind trigger try_catch try_finally run handle].
  destruct (cardRef env) as [node |]; [| repeat split; congruence].
  cbn [bind trigger try_catch try_finally run handle].
  destruct (toPng env _ _) as [href | err];
    cbn [bind trigger try_catch try_finally run handle fst snd];
    repeat split; congruence.
Qed.

Lemma downloadPNG_frame_witness :
  isDownloading (snd (run capture_failed_env (downloadPNG INITIAL_CARD) initial_world))
  = false.
Proof.
  apply (proj1 (proj2 (proj2 (proj2 (proj2 (proj2
           (downloadPNG_frame capture_failed_env initial_world INITIAL_CARD))))))).
  discriminate.
Defined.

(** The file name. *)

Lemma collapsed_no_space (s r : jsstring) : collapsed s r -> no_space r = true.
Proof.
  induction 1 as [| c s r Hc _ IH | spaces s r _ _ _ _ IH]; [reflexivity | |].
  - cbn [no_space forallb]. rewrite Hc. exact IH.
  - exact IH.
Qed.

Lemma replace_spaces_no_space (s : jsstring) :
  no_space (replace_spaces (lit "_") s) = true.
Proof.
  apply (collapsed_no_space s), replace_spaces_collapsed.
Qed.

Lemma replace_spaces_id (by_ s : jsstring) :
  no_space s = true -> replace_spaces by_ s = s.
Proof.
  induction s as [| c s IH]; [reflexivity |].
  cbn [no_space forallb]. intro H. apply andb_true_iff in H as [Hc Hs].
  rewrite replace_spaces_cons. destruct (is_space c); [discriminate |].
  rewrite (IH Hs). reflexivity.
Qed.

Lemma no_space_app (a b : jsstring) :
  no_space (a ++ b) = no_space a && no_space b.
Proof. apply forallb_app. Qed.

(** X14: the export file name never contains a whitespace code unit. *)
Theorem download_name_no_space (name : jsstring) :
  no_space (download_name name) = true.
Proof.
  unfold download_name. rewrite !no_space_app, replace_spaces_no_space. reflexivity.
Qed.

(** X15: a non-empty recipient without whitespace appears in the file name
    unchanged. *)
Theorem download_name_keeps_plain_name (name : jsstring) :
  name <> [] -> no_space name = true ->
  download_name name = lit "christmas-card-" ++ name ++ lit ".png".
Proof.
  intros Hne Hplain. unfold download_name, or_else.
  rewrite (truthy_nonempty _ Hne), (replace_spaces_id _ _ Hplain). reflexivity.
Qed.

Lemma download_name_keeps_plain_name_witness :
  download_name (lit "Ann") = lit "christmas-card-Ann.png".
Proof.
  apply (download_name_keeps_plain_name (lit "Ann")); [discriminate | reflexivity].
Defined.

Lemma replace_spaces_nonempty (by_ s : jsstring) :
  by_ <> [] -> s <> [] -> replace_spaces by_ s <> [].
Proof.
  intros Hby Hs. destruct s as [| c s]; [congruence |].
  rewrite replace_spaces_cons. destruct (is_space c); [| discriminate].
  destruct by_; [congruence | cbn [app]; discriminate].
Qed.

(** X16: collapsing whitespace a second time changes nothing, so a
    recipient and its collapsed form share one file name. *)
Theorem download_name_idempotent (name : jsstring) :
  replace_spaces (lit "_") (replace_spaces (lit "_") name) = replace_spaces (lit "_") name
  /\ (name <> [] -> download_name (replace_spaces (lit "_") name) = download_name name).
Proof.
  assert (Hid : replace_spaces (lit "_") (replace_spaces (lit "_") name)
                = replace_spaces (lit "_") name).
  { apply replace_spaces_id, replace_spaces_no_space. }
  split; [exact Hid |]. intro Hne. unfold download_name, or_else.
  rewrite (truthy_nonempty _ Hne).
  assert (Hby : lit "_" <> []) by discriminate.
  rewrite (truthy_nonempty _ (replace_spaces_nonempty _ _ Hby Hne)), Hid.
  reflexivity.
Qed.

Lemma download_name_idempotent_witness :
  download_name (replace_spaces (lit "_") (lit "Jo  Ann")) = download_name (lit "Jo  Ann").
Proof.
  apply (proj2 (download_name_idempotent (lit "Jo  Ann"))). discriminate.
Defined.

(** ** Schedules do not matter *)

Lemma handleGenerateText_local (c : CardData) :
  updates_local text_fields (handleGenerateText c).
Proof.
  unfold handleGenerateText, generateWishAI, getAI, await.
  repeat first
    [ progress cbn [bind try_catch trigger updates_local effect_local]
    | match goal with
      | |- _ /\ _ => split
      | |- True => exact I
      | |- forall _, _ => intro
      | x : Outcome _ |- _ => destruct x
      | |- context [if ?b then _ else _] => destruct b
      end ];
    unfold text_fields in *; cbn; congruence.
Qed.

Lemma handleGenerateImage_local (c : CardData) :
  updates_local image_fields (handleGenerateImage c).
Proof.
  unfold handleGenerateImage, generateCardImageAI, getAI, await.
  repeat first
    [ progress cbn [bind try_catch trigger updates_local effect_local]
    | match goal with
      | |- _ /\ _ => split
      | |- True => exact I
      | |- forall _, _ => intro
      | x : Outcome _ |- _ => destruct x
      | |- context [match narrow ?v with _ => _ end] => destruct (narrow v)
      end ];
    unfold image_fields in *; cbn; congruence.
Qed.

Section Locality.

Variable env : Env.
Context {V : Type}.
Variable proj : CardData -> V.

Lemma handle_local {X : Type} (e : Eff X) (w w' : World) :
  effect_local proj e -> proj (card w) = proj (card w') ->
  fst (handle env e w) = fst (handle env e w')
  /\ proj (card (snd (handle env e w))) = proj (card (snd (handle env e w'))).
Proof.
  intros He Hw. destruct e; cbn in *; auto.
Qed.

Lemma run_local {A : Type} (p : Prog A) (w w' : World) :
  updates_local proj p -> proj (card w) = proj (card w') ->
  proj (card (snd (run env p w))) = proj (card (snd (run env p w'))).
Proof.
  revert w w'. induction p as [a | e | X e k IH]; intros w w'; cbn [run updates_local snd];
    [auto | auto |].
  intros [He Hk] Hw. destruct (handle_local e w w' He Hw) as [Hx Hc].
  destruct (handle env e w) as [x w1], (handle env e w') as [x' w1'].
  cbn [fst snd] in Hx, Hc. subst x'. apply IH; [apply Hk | exact Hc].
Qed.

Lemma step_updates_local {A : Type} (p : Prog A) (w : World) :
  updates_local proj p -> updates_local proj (fst (step env p w)).
Proof.
  destruct p as [a | e | X e k]; cbn [step]; [auto | auto |].
  intros [_ Hk]. destruct (handle env e w) as [x w']. apply Hk.
Qed.

Lemma run_step {A : Type} (p : Prog A) (w : World) :
  run env (fst (step env p w)) (snd (step env p w)) = run env p w.
Proof.
  destruct p as [a | e | X e k]; cbn [step run fst snd]; [reflexivity | reflexivity |].
  destruct (handle env e w) as [x w']. reflexivity.
Qed.

Lemma run_finished {A : Type} (p : Prog A) (w : World) :
  finished p = true -> snd (run env p w) = w.
Proof.
  destruct p; cbn; [reflexivity | reflexivity | discriminate].
Qed.

Lemma outcome_invariant_step (o : Op) (K : V) :
  forall o' c, outcome_invariant env proj o K c -> outcome_invariant env proj o K (step_op env o' c).
Proof.
  intros o' c (Hl & Hw & HK).
  destruct (step_op_task env o' c) as [Htask Hworld].
  pose proof (step_op_other env o' c) as Hsame.
  unfold outcome_invariant. rewrite Hworld.
  destruct o, o'; cbn [task other] in *; rewrite Htask, Hsame.
  - split; [apply step_updates_local, Hl | split; [exact Hw |]].
    rewrite run_step. exact HK.
  - split; [exact Hl | split; [apply step_updates_within, Hw |]].
    rewrite <- HK. apply run_local; [exact Hl |].
    apply (step_card_within (fun c1 c2 => proj c2 = proj c1) env); [reflexivity | exact Hw].
  - split; [exact Hl | split; [apply step_updates_within, Hw |]].
    rewrite <- HK. apply run_local; [exact Hl |].
    apply (step_card_within (fun c1 c2 => proj c2 = proj c1) env); [reflexivity | exact Hw].
  - split; [apply step_updates_local, Hl | split; [exact Hw |]].
    rewrite run_step. exact HK.
Qed.

Lemma outcome_invariant_finished (o : Op) (K : V) (c : Config) :
  outcome_invariant env proj o K c -> finished (task o c) = true ->
  proj (card (world c)) = K.
Proof.
  intros (_ & _ & HK) Hfin. rewrite (run_finished _ _ Hfin) in HK. exact HK.
Qed.

End Locality.

Lemma both_invoked_outcome_text (env : Env) (cardT cardI : CardData) (w : World) :
  outcome_invariant env text_fields TextOp
    (text_fields (card (snd (run env (handleGenerateText cardT) w))))
    (both_invoked cardT cardI w).
Proof.
  split; [apply handleGenerateText_local | split; [| reflexivity]].
  apply (updates_within_weaken same_outside_image); [| apply handleGenerateImage_updates].
  unfold same_outside_image, text_fields. intros c c' (_ & _ & _ & _ & -> & ->). reflexivity.
Qed.

Lemma both_invoked_outcome_image (env : Env) (cardT cardI : CardData) (w : World) :
  outcome_invariant env image_fields ImageOp
    (image_fields (card (snd (run env (handleGenerateImage cardI) w))))
    (both_invoked cardT cardI w).
Proof.
  split; [apply handleGenerateImage_local | split; [| reflexivity]].
  apply (updates_within_weaken same_outside_text); [| apply handleGenerateText_updates].
  unfold same_outside_text, image_fields. intros c c' (_ & _ & _ & _ & -> & ->). reflexivity.
Qed.

(** The card a whole interleaving ends with, field by field. *)
Lemma settle_both_card (env : Env) (schedule : list Op) (cardT cardI : CardData) (w : World) :
  same_shared_fields (card w)
    (card (world (settle_both env schedule (both_invoked cardT cardI w))))
  /\ text_fields (card (world (settle_both env schedule (both_invoked cardT cardI w))))
     = text_fields (card (snd (run env (handleGenerateText cardT) w)))
  /\ image_fields (card (world (settle_both env schedule (both_invoked cardT cardI w))))
     = image_fields (card (snd (run env (handleGenerateImage cardI) w))).
Proof.
  destruct (settle_both_schedule env schedule (both_invoked cardT cardI w))
    as (n & m & _ & Hft & Hfi).
  split; [| split].
  - apply (settle_both_invariant env (kept_invariant same_shared_fields (card w)));
      [apply kept_invariant_step;
         [apply same_shared_fields_refl | apply same_shared_fields_trans]
      | apply both_invoked_kept].
  - apply (outcome_invariant_finished env text_fields TextOp); [| exact Hft].
    apply settle_both_invariant; [apply outcome_invariant_step |].
    apply both_invoked_outcome_text.
  - apply (outcome_invariant_finished env image_fields ImageOp); [| exact Hfi].
    apply settle_both_invariant; [apply outcome_invariant_step |].
    apply both_invoked_outcome_image.
Qed.

Lemma card_fields_eq (c0 c1 c2 : CardData) :
  same_shared_fields c0 c1 -> same_shared_fields c0 c2 ->
  text_fields c1 = text_fields c2 -> image_fields c1 = image_fields c2 -> c1 = c2.
Proof.
  destruct c0, c1, c2. unfold same_shared_fields, text_fields, image_fields. cbn.
  intros (-> & -> & -> & ->) (-> & -> & -> & ->) Ht Hi.
  injection Ht as -> ->. injection Hi as -> ->. reflexivity.
Qed.

Lemma text_then_image_card (env : Env) (w : World) (cardT cardI : CardData) :
  same_shared_fields (card w)
    (card (snd (run env (handleGenerateImage cardI)
                    (snd (run env (handleGenerateText cardT) w)))))
  /\ text_fields (card (snd (run env (handleGenerateImage cardI)
                                 (snd (run env (handleGenerateText cardT) w)))))
     = text_fields (card (snd (run env (handleGenerateText cardT) w)))
  /\ image_fields (card (snd (run env (handleGenerateImage cardI)
                                  (snd (run env (handleGenerateText cardT) w)))))
     = image_fields (card (snd (run env (handleGenerateImage cardI) w))).
Proof.
  pose proof (run_card_within same_outside_text env (handleGenerateText cardT) w
                same_outside_text_refl same_outside_text_trans
                (handleGenerateText_updates cardT)) as HT.
  pose proof (run_card_within same_outside_image env (handleGenerateImage cardI)
                (snd (run env (handleGenerateText cardT) w))
                same_outside_image_refl same_outside_image_trans
                (handleGenerateImage_updates cardI)) as HI.
  unfold same_outside_text in HT. unfold same_outside_image in HI.
  destruct HT as (T1 & T2 & T3 & T4 & T5 & T6), HI as (I1 & I2 & I3 & I4 & I5 & I6).
  split; [| split].
  - unfold same_shared_fields. repeat split; congruence.
  - unfold text_fields. congruence.
  - apply run_local; [apply handleGenerateImage_local |].
    unfold image_fields. congruence.
Qed.

Lemma image_then_text_card (env : Env) (w : World) (cardT cardI : CardData) :
  same_shared_fields (card w)
    (card (snd (run env (handleGenerateText cardT)
                    (snd (run env (handleGenerateImage cardI) w)))))
  /\ text_fields (card (snd (run env (handleGenerateText cardT)
                                 (snd (run env (handleGenerateImage cardI) w)))))
     = text_fields (card (snd (run env (handleGenerateText cardT) w)))
  /\ image_fields (card (snd (run env (handleGenerateText cardT)
                                  (snd (run env (handleGenerateImage cardI) w)))))
     = image_fields (card (snd (run env (handleGenerateImage cardI) w))).
Proof.
  pose proof (run_card_within same_outside_image env (handleGenerateImage cardI) w
                same_outside_image_refl same_outside_image_trans
                (handleGenerateImage_updates cardI)) as HI.
  pose proof (run_card_within same_outside_text env (handleGenerateText cardT)
                (snd (run env (handleGenerateImage cardI) w))
                same_outside_text_refl same_outside_text_trans
                (handleGenerateText_updates cardT)) as HT.
  unfold same_outside_text in HT. unfold same_outside_image in HI.
  destruct HT as (T1 & T2 & T3 & T4 & T5 & T6), HI as (I1 & I2 & I3 & I4 & I5 & I6).
  split; [| split].
  - unfold same_shared_fields. repeat split; congruence.
  - apply run_local; [apply handleGenerateText_local |].
    unfold text_fields. congruence.
  - unfold image_fields. congruence.
Qed.

(** X17: the card a text generation and an image generation leave behind
    does not depend on how their steps interleave: every schedule ends with
    the card of running the two one after the other, in either order. *)
Theorem interleaving_order_irrelevant
    (env : Env) (w : World) (cardT cardI : CardData) (schedule : list Op) :
  card (world (settle_both env schedule (both_invoked cardT cardI w)))
  = card (snd (run env (handleGenerateImage cardI)
                   (snd (run env (handleGenerateText cardT) w))))
  /\ card (world (settle_both env schedule (both_invoked cardT cardI w)))
     = card (snd (run env (handleGenerateText cardT)
                      (snd (run env (handleGenerateImage cardI) w)))).
Proof.
  destruct (settle_both_card env schedule cardT cardI w) as (Hs & Ht & Hi).
  destruct (text_then_image_card env w cardT cardI) as (Hs1 & Ht1 & Hi1).
  destruct (image_then_text_card env w cardT cardI) as (Hs2 & Ht2 & Hi2).
  split; apply (card_fields_eq (card w)); congruence.
Qed.

(** ** Sharing *)

Lemma hex_digit_unreserved (n : N) : (n < 16)%N -> is_unreserved (hex_digit n) = true.
Proof.
  intro Hn. unfold hex_digit, is_unreserved.
  destruct (N.ltb_spec n 10) as [Hdigit | Hletter].
  - assert (Hlo : (48 <=? 48 + n)%N = true) by (apply N.leb_le; lia).
    assert (Hhi : (48 + n <=? 57)%N = true) by (apply N.leb_le; lia).
    rewrite Hlo, Hhi. cbn [andb]. rewrite orb_true_r. reflexivity.
  - assert (Hlo : (65 <=? 55 + n)%N = true) by (apply N.leb_le; lia).
    assert (Hhi : (55 + n <=? 90)%N = true) by (apply N.leb_le; lia).
    rewrite Hlo, Hhi. reflexivity.
Qed.

Lemma percent_safe (octet : N) :
  (octet < 256)%N -> forallb is_query_safe (percent octet) = true.
Proof.
  intro Ho. unfold percent. cbn [forallb]. unfold is_query_safe at 2 3.
  rewrite !hex_digit_unreserved; [reflexivity | |].
  - apply N.mod_lt. discriminate.
  - apply N.Div0.div_lt_upper_bound. lia.
Qed.

Lemma utf8_octets (cp : N) :
  (cp < 1114112)%N -> Forall (fun o => (o < 256)%N) (utf8 cp).
Proof.
  intro Hcp. unfold utf8.
  pose proof (N.mod_lt cp 64 ltac:(discriminate)) as M0.
  pose proof (N.mod_lt (cp / 64) 64 ltac:(discriminate)) as M1.
  pose proof (N.mod_lt (cp / 4096) 64 ltac:(discriminate)) as M2.
  destruct (N.ltb_spec cp 128) as [H1 | H1];
    [| destruct (N.ltb_spec cp 2048) as [H2 | H2];
       [assert (cp / 64 < 32)%N by (apply N.Div0.div_lt_upper_bound; lia)
       | destruct (N.ltb_spec cp 65536) as [H3 | H3];
         [assert (cp / 4096 < 16)%N by (apply N.Div0.div_lt_upper_bound; lia)
         | assert (cp / 262144 < 5)%N by (apply N.Div0.div_lt_upper_bound; lia)]]];
    repeat apply Forall_cons; try apply Forall_nil; lia.
Qed.

Lemma escape_safe (cp : N) :
  (cp < 1114112)%N -> forallb is_query_safe (escape cp) = true.
Proof.
  intro Hcp. unfold escape. pose proof (utf8_octets cp Hcp) as Ho.
  induction Ho as [| o os Hlt _ IH]; [reflexivity |].
  cbn [flat_map]. rewrite forallb_app, (percent_safe o Hlt), IH. reflexivity.
Qed.

Lemma surrogate_pair_bound (c d : N) :
  is_lead_surrogate c = true -> is_trail_surrogate d = true ->
  (surrogate_pair c d < 1114112)%N.
Proof.
  unfold is_lead_surrogate, is_trail_surrogate, surrogate_pair.
  intros Hc Hd. apply andb_true_iff in Hc as [Hc1 Hc2]. apply andb_true_iff in Hd as [Hd1 Hd2].
  apply N.leb_le in Hc1, Hc2, Hd1, Hd2. lia.
Qed.

(** Induction that follows [encodeURIComponent]: one code unit, or a
    surrogate pair, at a time. *)
Lemma jsstring_pair_ind (P : jsstring -> Prop) :
  P [] ->
  (forall c s, P s -> (forall d s', s = d :: s' -> P s') -> P (c :: s)) ->
  forall s, P s.
Proof.
  intros Hnil Hcons s.
  assert (H : P s /\ forall c, P (c :: s)).
  { induction s as [| a s [IH1 IH2]].
    - split; [exact Hnil |]. intro c. apply Hcons; [exact Hnil | discriminate].
    - split; [apply IH2 |]. intro c. apply Hcons; [apply IH2 |].
      intros d s' Heq. injection Heq as _ <-. exact IH1. }
  apply H.
Qed.

Lemma option_map_app_nil (x : option jsstring) : option_map (app []) x = x.
Proof. destruct x; reflexivity. Qed.

Lemma encodeURIComponent_safe (s e : jsstring) :
  forallb is_code_unit s = true -> encodeURIComponent s = Some e ->
  forallb is_query_safe e = true.
Proof.
  revert e. induction s as [| c s IHs IHpair] using jsstring_pair_ind; intros e Hwf Henc.
  - injection Henc as <-. reflexivity.
  - cbn [forallb] in Hwf. apply andb_true_iff in Hwf as [Hc Hwf].
    cbn [encodeURIComponent] in Henc.
    destruct (is_unreserved c) eqn:Hun.
    { destruct (encodeURIComponent s) as [es |]; [| discriminate].
      injection Henc as <-. cbn [forallb]. unfold is_query_safe at 1.
      rewrite Hun, (IHs es Hwf eq_refl). reflexivity. }
    destruct (is_trail_surrogate c); [discriminate |].
    destruct (is_lead_surrogate c) eqn:Hlead.
    + destruct s as [| d s']; [discriminate |].
      destruct (is_trail_surrogate d) eqn:Htrail; [| discriminate].
      cbn [forallb] in Hwf. apply andb_true_iff in Hwf as [_ Hwf'].
      destruct (encodeURIComponent s') as [es |] eqn:Hes; [| discriminate].
      injection Henc as <-. rewrite forallb_app.
      rewrite (escape_safe _ (surrogate_pair_bound c d Hlead Htrail)).
      apply (IHpair d s' eq_refl es Hwf' Hes).
    + destruct (encodeURIComponent s) as [es |]; [| discriminate].
      injection Henc as <-. rewrite forallb_app.
      unfold is_code_unit in Hc. apply N.ltb_lt in Hc.
      rewrite (escape_safe c ltac:(lia)). apply (IHs es Hwf eq_refl).
Qed.

Lemma encodeURIComponent_plain (s : jsstring) :
  forallb is_plain s = true -> encodeURIComponent s <> None.
Proof.
  induction s as [| c s IH]; [discriminate |].
  cbn [forallb encodeURIComponent]. intro H. apply andb_true_iff in H as [Hc Hs].
  unfold is_plain in Hc. apply andb_true_iff in Hc as [Hc Htrail].
  apply andb_true_iff in Hc as [_ Hlead].
  apply negb_true_iff in Hlead, Htrail. rewrite Hlead, Htrail.
  specialize (IH Hs).
  destruct (is_unreserved c), (encodeURIComponent s); cbn; congruence.
Qed.

Lemma encodeURIComponent_app (a b ea : jsstring) :
  encodeURIComponent a = Some ea ->
  encodeURIComponent (a ++ b) = option_map (app ea) (encodeURIComponent b).
Proof.
  revert ea. induction a as [| c s IHs IHpair] using jsstring_pair_ind; intros ea Henc.
  - injection Henc as <-. cbn [app]. symmetry. apply option_map_app_nil.
  - cbn [encodeURIComponent app] in *.
    destruct (is_unreserved c).
    { destruct (encodeURIComponent s) as [es |]; [| discriminate].
      injection Henc as <-. rewrite (IHs es eq_refl).
      destruct (encodeURIComponent b); reflexivity. }
    destruct (is_trail_surrogate c); [discriminate |].
    destruct (is_lead_surrogate c).
    + destruct s as [| d s']; [discriminate |]. cbn [app].
      destruct (is_trail_surrogate d); [| discriminate].
      destruct (encodeURIComponent s') as [es |] eqn:Hes; [| discriminate].
      injection Henc as <-. rewrite (IHpair d s' eq_refl es Hes).
      destruct (encodeURIComponent b); cbn [option_map]; [rewrite app_assoc |]; reflexivity.
    + destruct (encodeURIComponent s) as [es |]; [| discriminate].
      injection Henc as <-. rewrite (IHs es eq_refl).
      destruct (encodeURIComponent b); cbn [option_map]; [rewrite app_assoc |]; reflexivity.
Qed.

Lemma encodeURIComponent_app_none (a b : jsstring) (c0 : N) :
  is_trail_surrogate c0 = false ->
  encodeURIComponent a = None -> encodeURIComponent (a ++ c0 :: b) = None.
Proof.
  intro Hc0. induction a as [| c s IHs IHpair] using jsstring_pair_ind; intro Henc.
  - discriminate.
  - cbn [encodeURIComponent app] in *.
    destruct (is_unreserved c).
    { destruct (encodeURIComponent s) as [es |]; [discriminate |].
      rewrite (IHs eq_refl). reflexivity. }
    destruct (is_trail_surrogate c); [reflexivity |].
    destruct (is_lead_surrogate c).
    + destruct s as [| d s']; cbn [app]; [rewrite Hc0; reflexivity |].
      destruct (is_trail_surrogate d); [| reflexivity].
      destruct (encodeURIComponent s') as [es |] eqn:Hes; [discriminate |].
      rewrite (IHpair d s' eq_refl Hes). reflexivity.
    + destruct (encodeURIComponent s) as [es |]; [discriminate |].
      rewrite (IHs eq_refl). reflexivity.
Qed.

Lemma share_text_pieces (origin : jsstring) (c : CardData) :
  share_text origin c
  = SHARE_HEAD ++ or_else (recipient c) (lit "you") ++ SHARE_AFTER_RECIPIENT
    ++ message c ++ SHARE_AFTER_MESSAGE ++ origin ++ SHARE_TAIL.
Proof.
  unfold share_text, SHARE_HEAD, SHARE_AFTER_RECIPIENT, SHARE_AFTER_MESSAGE, SHARE_TAIL.
  rewrite <- !app_assoc. reflexivity.
Qed.

(** The encoding of the whole message, from the encodings of its three
    variable parts. *)
Lemma encodeURIComponent_share_text (origin : jsstring) (c : CardData) :
  encodeURIComponent (share_text origin c)
  = match encodeURIComponent (or_else (recipient c) (lit "you")),
          encodeURIComponent (message c),
          encodeURIComponent origin with
    | Some er, Some em, Some eo =>
        Some (lit "%F0%9F%8E%84%20Christmas%20Card%20for%20"
              ++ er ++ lit "!%20%F0%9F%8E%85%0A%0A%22"
              ++ em ++ lit "%22%0A%0ACreate%20yours%3A%20"
              ++ eo ++ lit "%0A%0AGenerated%20by%20Infinity%20Team%20%E2%9C%A8")
    | _, _, _ => None
    end.
Proof.
  rewrite share_text_pieces.
  rewrite (encodeURIComponent_app SHARE_HEAD _ _ eq_refl).
  destruct (encodeURIComponent (or_else (recipient c) (lit "you"))) as [er |] eqn:Hr.
  - rewrite (encodeURIComponent_app _ _ _ Hr).
    rewrite (encodeURIComponent_app SHARE_AFTER_RECIPIENT _ _ eq_refl).
    destruct (encodeURIComponent (message c)) as [em |] eqn:Hm.
    + rewrite (encodeURIComponent_app _ _ _ Hm).
      rewrite (encodeURIComponent_app SHARE_AFTER_MESSAGE _ _ eq_refl).
      destruct (encodeURIComponent origin) as [eo |] eqn:Ho.
      * rewrite (encodeURIComponent_app _ _ _ Ho).
        change (encodeURIComponent SHARE_TAIL)
          with (Some (lit "%0A%0AGenerated%20by%20Infinity%20Team%20%E2%9C%A8")).
        cbn [option_map]. rewrite <- !app_assoc. reflexivity.
      * change SHARE_TAIL with (10%N :: tl SHARE_TAIL).
        rewrite (encodeURIComponent_app_none origin _ 10 eq_refl Ho). reflexivity.
    + change SHARE_AFTER_MESSAGE with (34%N :: tl SHARE_AFTER_MESSAGE).
      cbn [app].
      rewrite (encodeURIComponent_app_none (message c) _ 34 eq_refl Hm). reflexivity.
  - change SHARE_AFTER_RECIPIENT with (33%N :: tl SHARE_AFTER_RECIPIENT).
    cbn [app].
    rewrite (encodeURIComponent_app_none _ _ 33 eq_refl Hr). reflexivity.
Qed.

(** X20: when the recipient (or [you] for an empty one), the message and
    the origin each encode, the link opened in a new tab is the fixed
    encoded frame with the three encodings in their places. *)
Theorem share_link_composed (origin : jsstring) (c : CardData) (er em eo : jsstring) :
  encodeURIComponent (or_else (recipient c) (lit "you")) = Some er ->
  encodeURIComponent (message c) = Some em ->
  encodeURIComponent origin = Some eo ->
  shareToWhatsApp origin c
  = Normal (lit "https://wa.me/?text=%F0%9F%8E%84%20Christmas%20Card%20for%20"
            ++ er ++ lit "!%20%F0%9F%8E%85%0A%0A%22"
            ++ em ++ lit "%22%0A%0ACreate%20yours%3A%20"
            ++ eo ++ lit "%0A%0AGenerated%20by%20Infinity%20Team%20%E2%9C%A8",
            lit "_blank").
Proof.
  intros Hr Hm Ho. unfold shareToWhatsApp.
  rewrite encodeURIComponent_share_text, Hr, Hm, Ho.
  reflexivity.
Qed.

Lemma share_link_composed_witness :
  shareToWhatsApp (lit "https://x.app") (sample_card [] (lit "Bob"))
  = Normal (lit "https://wa.me/?text=%F0%9F%8E%84%20Christmas%20Card%20for%20"
            ++ lit "you" ++ lit "!%20%F0%9F%8E%85%0A%0A%22"
            ++ lit "Enter%20names%20below%20to%20create%20your%20magical%20Christmas%20wish..."
            ++ lit "%22%0A%0ACreate%20yours%3A%20"
            ++ lit "https%3A%2F%2Fx.app"
            ++ lit "%0A%0AGenerated%20by%20Infinity%20Team%20%E2%9C%A8",
            lit "_blank").
Proof.
  apply (share_link_composed (lit "https://x.app") (sample_card [] (lit "Bob")));
    reflexivity.
Defined.

(** X21: sharing throws a URIError exactly when the recipient (or [you]),
    the message or the origin cannot be encoded on its own, that is, holds
    an unpaired surrogate; with no surrogates at all it always opens a
    link. *)
Theorem share_throws_iff (origin : jsstring) (c : CardData) :
  (shareToWhatsApp origin c = Thrown (lit "URIError")
   <-> encodeURIComponent (or_else (recipient c) (lit "you")) = None
       \/ encodeURIComponent (message c) = None
       \/ encodeURIComponent origin = None)
  /\ (forallb is_plain (recipient c) = true -> forallb is_plain (message c) = true ->
      forallb is_plain origin = true ->
      exists url, shareToWhatsApp origin c = Normal (url, lit "_blank")).
Proof.
  unfold shareToWhatsApp. rewrite encodeURIComponent_share_text. split.
  - destruct (encodeURIComponent (or_else (recipient c) (lit "you"))) as [er |];
      [| split; [left |]; reflexivity].
    destruct (encodeURIComponent (message c)) as [em |];
      [| split; [right; left |]; reflexivity].
    destruct (encodeURIComponent origin) as [eo |];
      [| split; [right; right |]; reflexivity].
    split; [discriminate | intros [H | [H | H]]; discriminate].
  - intros Pr Pm Po.
    assert (Pr' : forallb is_plain (or_else (recipient c) (lit "you")) = true).
    { unfold or_else. destruct (truthy (recipient c)); [exact Pr | reflexivity]. }
    pose proof (encodeURIComponent_plain _ Pr') as Hr.
    pose proof (encodeURIComponent_plain _ Pm) as Hm.
    pose proof (encodeURIComponent_plain _ Po) as Ho.
    destruct (encodeURIComponent (or_else (recipient c) (lit "you"))); [| congruence].
    destruct (encodeURIComponent (message c)); [| congruence].
    destruct (encodeURIComponent origin); [| congruence].
    eexists. reflexivity.
Qed.

Lemma share_throws_iff_witness :
  shareToWhatsApp (lit "https://x.app") (sample_card [55357%N] (lit "Bob"))
  = Thrown (lit "URIError").
Proof.
  apply (proj2 (proj1 (share_throws_iff (lit "https://x.app")
                         (sample_card [55357%N] (lit "Bob"))))).
  left. reflexivity.
Defined.

(** X22: whatever the names and the message contain, the link that is
    opened is [https://wa.me/?text=] followed only by unreserved characters
    and percent signs, so nothing in the card can end the query or add a
    parameter; the target is always [_blank]. *)
Theorem share_link_query_safe
    (origin : jsstring) (c : CardData) (url target : jsstring) :
  forallb is_code_unit (recipient c) = true ->
  forallb is_code_unit (message c) = true ->
  forallb is_code_unit origin = true ->
  shareToWhatsApp origin c = Normal (url, target) ->
  target = lit "_blank"
  /\ exists query,
       url = lit "https://wa.me/?text=" ++ query
       /\ forallb is_query_safe query = true.
Proof.
  intros Wr Wm Wo. unfold shareToWhatsApp.
  destruct (encodeURIComponent (share_text origin c)) as [encoded |] eqn:Henc;
    [| discriminate].
  intro H. injection H as <- <-. split; [reflexivity |].
  exists encoded. split; [reflexivity |].
  apply (encodeURIComponent_safe (share_text origin c)); [| exact Henc].
  rewrite share_text_pieces, !forallb_app, Wm, Wo.
  assert (Wr' : forallb is_code_unit (or_else (recipient c) (lit "you")) = true).
  { unfold or_else. destruct (truthy (recipient c)); [exact Wr | reflexivity]. }
  rewrite Wr'. reflexivity.
Qed.

Lemma share_link_query_safe_witness :
  lit "_blank" = lit "_blank"
  /\ exists query,
       lit "https://wa.me/?text=%F0%9F%8E%84%20Christmas%20Card%20for%20a%26b%3Dc!%20%F0%9F%8E%85%0A%0A%22Enter%20names%20below%20to%20create%20your%20magical%20Christmas%20wish...%22%0A%0ACreate%20yours%3A%20https%3A%2F%2Fx.app%0A%0AGenerated%20by%20Infinity%20Team%20%E2%9C%A8"
       = lit "https://wa.me/?text=" ++ query
       /\ forallb is_query_safe query = true.
Proof.
  apply (share_link_query_safe (lit "https://x.app") (sample_card (lit "a&b=c") (lit "Bob")));
    reflexivity.
Defined.

(** ** The same handler invoked again while in flight *)

Section TwoEnvironments.

Variables env1 env2 : Env.

Lemma interleave2_app (s1 s2 : list Op) (c : Config) :
  interleave2 env1 env2 (s1 ++ s2) c
  = interleave2 env1 env2 s2 (interleave2 env1 env2 s1 c).
Proof.
  revert c. induction s1 as [| o s1 IH]; intro c; [reflexivity | apply IH].
Qed.

Lemma interleave2_invariant (Inv : Config -> Prop) :
  (forall o c, Inv c -> Inv (step_op2 env1 env2 o c)) ->
  forall schedule c, Inv c -> Inv (interleave2 env1 env2 schedule c).
Proof.
  intros Hstep schedule. induction schedule as [| o rest IH]; intros c Hc; [exact Hc |].
  apply IH, Hstep, Hc.
Qed.

Lemma interleave2_first (n : nat) (c : Config) :
  interleave2 env1 env2 (repeat TextOp n) c = interleave env1 (repeat TextOp n) c.
Proof.
  revert c. induction n as [| n IH]; intro c; [reflexivity | apply IH].
Qed.

Lemma interleave2_second (n : nat) (c : Config) :
  interleave2 env1 env2 (repeat ImageOp n) c = interleave env2 (repeat ImageOp n) c.
Proof.
  revert c. induction n as [| n IH]; intro c; [reflexivity | apply IH].
Qed.

Lemma settle_both2_schedule (schedule : list Op) (c : Config) :
  exists n m,
    settle_both2 env1 env2 schedule c
    = interleave2 env1 env2 (schedule ++ repeat TextOp n ++ repeat ImageOp m) c
    /\ finished (textTask (settle_both2 env1 env2 schedule c)) = true
    /\ finished (imageTask (settle_both2 env1 env2 schedule c)) = true.
Proof.
  unfold settle_both2.
  destruct (drain_schedule env1 TextOp (interleave2 env1 env2 schedule c))
    as (n & Hd1 & Hf1 & Ho1).
  cbn [task other] in *. rewrite Hd1.
  set (c2 := interleave env1 (repeat TextOp n) (interleave2 env1 env2 schedule c)) in *.
  destruct (drain_schedule env2 ImageOp c2) as (m & Hd2 & Hf2 & Ho2).
  cbn [task other] in *. rewrite <- Ho1, Hd2.
  exists n, m. rewrite !interleave2_app, interleave2_first, interleave2_second. fold c2.
  destruct (interleave env2 (repeat ImageOp m) c2) as [pt pi w tr] eqn:Hc3.
  cbn [textTask imageTask world trace] in *. subst pt.
  repeat split; assumption.
Qed.

Lemma settle_both2_invariant (Inv : Config -> Prop) :
  (forall o c, Inv c -> Inv (step_op2 env1 env2 o c)) ->
  forall schedule c, Inv c -> Inv (settle_both2 env1 env2 schedule c).
Proof.
  intros Hstep schedule c Hc.
  destruct (settle_both2_schedule schedule c) as (n & m & -> & _).
  apply interleave2_invariant; assumption.
Qed.

Lemma step_clears_other {A : Type} (flag : CardData -> bool) (env : Env)
      (b b2 : bool) (p : Prog A) (w : World) :
  clears env flag b p -> (b = true -> b2 = true -> flag (card w) = false) ->
  exists b', clears env flag b' (fst (step env p w))
             /\ (b' = true -> b2 = true -> flag (card (snd (step env p w))) = false).
Proof.
  destruct p as [a | e | X e k]; cbn [step clears].
  - intros -> Hw. exists true. cbn. auto.
  - intros [].
  - destruct e; cbn [handle fst snd];
      try (intros Hk Hw; exists b; split; [exact Hk | exact Hw]).
    intros [[Hf Hk] | [[Hf Hk] | Hk]] Hw.
    + exists true. split; [exact Hk | intros _ _; apply Hf].
    + exists b. split; [exact Hk |]. intros Hb Hb2. cbn. rewrite Hf. apply Hw; assumption.
    + exists false. split; [exact Hk | discriminate].
Qed.

Lemma reentrant_invariant_step (flag : CardData -> bool) :
  forall o c, reentrant_invariant env1 env2 flag c ->
              reentrant_invariant env1 env2 flag (step_op2 env1 env2 o c).
Proof.
  intros o c (b1 & b2 & H1 & H2 & Hw). unfold reentrant_invariant.
  destruct o; cbn [step_op2].
  - destruct (step_op_task env1 TextOp c) as [Htask Hworld].
    pose proof (step_op_other env1 TextOp c) as Hsame.
    cbn [task other] in *. rewrite Hworld, Htask, Hsame.
    destruct (step_clears_other flag env1 b1 b2 _ (world c) H1 Hw) as (b1' & H1' & Hw').
    exists b1', b2. auto.
  - destruct (step_op_task env2 ImageOp c) as [Htask Hworld].
    pose proof (step_op_other env2 ImageOp c) as Hsame.
    cbn [task other] in *. rewrite Hworld, Htask, Hsame.
    destruct (step_clears_other flag env2 b2 b1 _ (world c) H2 (fun h2 h1 => Hw h1 h2))
      as (b2' & H2' & Hw').
    exists b1, b2'. auto.
Qed.

Lemma reentrant_invariant_finished (flag : CardData -> bool) (c : Config) :
  reentrant_invariant env1 env2 flag c ->
  finished (textTask c) = true -> finished (imageTask c) = true ->
  textTask c = Ret tt /\ imageTask c = Ret tt /\ flag (card (world c)) = false.
Proof.
  intros (b1 & b2 & H1 & H2 & Hw) Hf1 Hf2.
  destruct (textTask c) as [[] | e | X e k]; cbn in *; [| contradiction | discriminate].
  destruct (imageTask c) as [[] | e | X e k]; cbn in *; [| contradiction | discriminate].
  auto.
Qed.

Lemma handle_requests (env : Env) {X : Type} (e : Eff X) (w : World) :
  List.length (requests (snd (handle env e w)))
  = is_request e + List.length (requests w).
Proof. destruct e; reflexivity. Qed.

Lemma step_requests (env : Env) {A : Type} (p : Prog A) (w : World) :
  List.length (requests (snd (step env p w))) + requests_ahead env (fst (step env p w))
  = List.length (requests w) + requests_ahead env p.
Proof.
  destruct p as [a | e | X e k]; cbn [step requests_ahead fst snd]; [reflexivity | reflexivity |].
  pose proof (handle_requests env e w) as Hr.
  pose proof (handle_answer env e w initial_world) as Ha.
  destruct (handle env e w) as [x w']. cbn [fst snd] in *. rewrite <- Ha. lia.
Qed.

Lemma requests_invariant_step (total : nat) :
  forall o c, requests_invariant env1 env2 total c ->
              requests_invariant env1 env2 total (step_op2 env1 env2 o c).
Proof.
  intros o c H. unfold requests_invariant in *.
  destruct o; cbn [step_op2].
  - destruct (step_op_task env1 TextOp c) as [Htask Hworld].
    pose proof (step_op_other env1 TextOp c) as Hsame.
    cbn [task other] in *. rewrite Hworld, Htask, Hsame.
    pose proof (step_requests env1 (textTask c) (world c)). lia.
  - destruct (step_op_task env2 ImageOp c) as [Htask Hworld].
    pose proof (step_op_other env2 ImageOp c) as Hsame.
    cbn [task other] in *. rewrite Hworld, Htask, Hsame.
    pose proof (step_requests env2 (imageTask c) (world c)). lia.
Qed.

Lemma requests_ahead_finished (env : Env) {A : Type} (p : Prog A) :
  finished p = true -> requests_ahead env p = 0.
Proof. destruct p; cbn; [reflexivity | reflexivity | discriminate]. Qed.

Lemma settle_both2_requests (schedule : list Op) (c : Config) :
  List.length (requests (world (settle_both2 env1 env2 schedule c)))
  = List.length (requests (world c))
    + requests_ahead env1 (textTask c) + requests_ahead env2 (imageTask c).
Proof.
  destruct (settle_both2_schedule schedule c) as (n & m & _ & Hf1 & Hf2).
  pose proof (settle_both2_invariant (requests_invariant env1 env2 _)
                (requests_invariant_step _) schedule c eq_refl) as H.
  unfold requests_invariant in H.
  rewrite (requests_ahead_finished env1 _ Hf1), (requests_ahead_finished env2 _ Hf2) in H.
  lia.
Qed.

End TwoEnvironments.

Lemma handleGenerateText_fills_message (env : Env) (ai : Client) (c : CardData) :
  newGoogleGenAI env = Resolved ai ->
  recipient c <> [] -> sender c <> [] ->
  clears env message_empty false (handleGenerateText c).
Proof.
  intros Hai Hr Hs. unfold handleGenerateText, generateWishAI, getAI, await.
  rewrite (truthy_nonempty _ Hr), (truthy_nonempty _ Hs).
  cbn [negb orb bind try_catch trigger clears handle fst]. rewrite Hai.
  right; right. cbn [bind try_catch trigger clears handle fst].
  destruct (generateContent env _) as [response | e];
    cbn [bind try_catch trigger clears handle fst]; left; split.
  - intro c0. unfold message_empty. cbn [spread_message message].
    destruct (text response) as [[| ch wish] |]; reflexivity.
  - destruct (innerWidth env <? 1024)%Z; reflexivity.
  - reflexivity.
  - destruct (innerWidth env <? 1024)%Z; reflexivity.
Qed.

Lemma requests_ahead_handleGenerateText (env : Env) (ai : Client) (c : CardData) :
  newGoogleGenAI env = Resolved ai ->
  recipient c <> [] -> sender c <> [] ->
  requests_ahead env (handleGenerateText c) = 1.
Proof.
  intros Hai Hr Hs. unfold handleGenerateText, generateWishAI, getAI, await.
  rewrite (truthy_nonempty _ Hr), (truthy_nonempty _ Hs).
  cbn [negb orb bind try_catch trigger requests_ahead is_request handle fst].
  rewrite Hai. cbn [bind try_catch trigger requests_ahead is_request handle fst].
  destruct (generateContent env _);
    cbn [bind try_catch trigger requests_ahead is_request handle fst];
    destruct (innerWidth env <? 1024)%Z; reflexivity.
Qed.

(** X18: nothing stops a second text generation from starting while one is
    in flight.  With each invocation answered in its own way (the same
    request may settle differently the second time), and [getAI()]
    returning the client for both: both issue their request (two in all),
    and under every schedule both settle normally, [isGeneratingMessage]
    ends false and [message] ends non-empty. *)
Theorem text_generation_reentrant
    (env1 env2 : Env) (ai1 ai2 : Client) (w : World) (card1 card2 : CardData)
    (schedule : list Op) :
  newGoogleGenAI env1 = Resolved ai1 -> newGoogleGenAI env2 = Resolved ai2 ->
  recipient card1 <> [] -> sender card1 <> [] ->
  recipient card2 <> [] -> sender card2 <> [] ->
  textTask (settle_both2 env1 env2 schedule (both_text_invoked card1 card2 w)) = Ret tt
  /\ imageTask (settle_both2 env1 env2 schedule (both_text_invoked card1 card2 w)) = Ret tt
  /\ isGeneratingMessage
       (card (world (settle_both2 env1 env2 schedule (both_text_invoked card1 card2 w))))
     = false
  /\ message
       (card (world (settle_both2 env1 env2 schedule (both_text_invoked card1 card2 w))))
     <> []
  /\ List.length
       (requests (world (settle_both2 env1 env2 schedule (both_text_invoked card1 card2 w))))
     = List.length (requests w) + 2.
Proof.
  intros Hai1 Hai2 Hr1 Hs1 Hr2 Hs2.
  destruct (settle_both2_schedule env1 env2 schedule (both_text_invoked card1 card2 w))
    as (n & m & _ & Hf1 & Hf2).
  assert (Hflag : reentrant_invariant env1 env2 isGeneratingMessage
                    (settle_both2 env1 env2 schedule (both_text_invoked card1 card2 w))).
  { apply settle_both2_invariant; [apply reentrant_invariant_step |].
    exists false, false. split; [| split; [| discriminate]].
    - apply (handleGenerateText_clears env1 ai1 _ Hai1); assumption.
    - apply (handleGenerateText_clears env2 ai2 _ Hai2); assumption. }
  assert (Hmsg : reentrant_invariant env1 env2 message_empty
                   (settle_both2 env1 env2 schedule (both_text_invoked card1 card2 w))).
  { apply settle_both2_invariant; [apply reentrant_invariant_step |].
    exists false, false. split; [| split; [| discriminate]].
    - apply (handleGenerateText_fills_message env1 ai1 _ Hai1); assumption.
    - apply (handleGenerateText_fills_message env2 ai2 _ Hai2); assumption. }
  destruct (reentrant_invariant_finished env1 env2 _ _ Hflag Hf1 Hf2) as (Ht1 & Ht2 & Hclear).
  destruct (reentrant_invariant_finished env1 env2 _ _ Hmsg Hf1 Hf2) as (_ & _ & Hfull).
  repeat split; try assumption.
  - unfold message_empty in Hfull. intro Hnil. rewrite Hnil in Hfull. discriminate.
  - rewrite settle_both2_requests. cbn [both_text_invoked textTask imageTask world].
    rewrite (requests_ahead_handleGenerateText env1 ai1 _ Hai1 Hr1 Hs1).
    rewrite (requests_ahead_handleGenerateText env2 ai2 _ Hai2 Hr2 Hs2). lia.
Qed.

Lemma text_generation_reentrant_witness :
  isGeneratingMessage
    (card (world (settle_both2 joy_env cheer_env sample_schedule
                    (both_text_invoked (sample_card (lit "Ann") (lit "Bob")) (sample_card (lit "Ann") (lit "Bob")) initial_world)))) = false.
Proof.
  apply (text_generation_reentrant joy_env cheer_env (GoogleGenAI []) (GoogleGenAI [])
           initial_world (sample_card (lit "Ann") (lit "Bob")) (sample_card (lit "Ann") (lit "Bob")) sample_schedule);
    [reflexivity | reflexivity | discriminate | discriminate | discriminate | discriminate].
Defined.

(** ** Edits made from a stale card *)

Lemma run_edit_handler (env : Env) (w : World) (rendered : CardData) (e : Edit) :
  run env (edit_handler rendered e) w
  = (Normal tt, apply_setCard (fun _ => apply_edit e rendered) w).
Proof. destruct e; reflexivity. Qed.

(** X19: the controls write the card they were rendered with.  After a
    text generation for which [getAI()] returned the client has settled
    (flag false, message non-empty), an edit
    whose handler was rendered while the request was in flight puts
    [isGeneratingMessage] back to true and the earlier message back; an
    edit rendered from the settled card keeps both. *)
Theorem stale_edit_undoes_settlement
    (env : Env) (ai : Client) (w : World) (c : CardData) (e : Edit) :
  newGoogleGenAI env = Resolved ai ->
  recipient c <> [] -> sender c <> [] ->
  (isGeneratingMessage (card (snd (run env (handleGenerateText c) w))) = false
   /\ message (card (snd (run env (handleGenerateText c) w))) <> [])
  /\ (isGeneratingMessage
        (card (snd (run env (edit_handler (spread_isGeneratingMessage true (card w)) e)
                        (snd (run env (handleGenerateText c) w))))) = true
      /\ message
           (card (snd (run env (edit_handler (spread_isGeneratingMessage true (card w)) e)
                           (snd (run env (handleGenerateText c) w))))) = message (card w))
  /\ (isGeneratingMessage
        (card (snd (run env (edit_handler (card (snd (run env (handleGenerateText c) w))) e)
                        (snd (run env (handleGenerateText c) w))))) = false
      /\ message
           (card (snd (run env (edit_handler (card (snd (run env (handleGenerateText c) w))) e)
                           (snd (run env (handleGenerateText c) w)))))
         = message (card (snd (run env (handleGenerateText c) w)))).
Proof.
  intros Hai Hr Hs.
  assert (Hsettled : isGeneratingMessage (card (snd (run env (handleGenerateText c) w))) = false
                     /\ message (card (snd (run env (handleGenerateText c) w))) <> []).
  { rewrite (run_handleGenerateText_world env ai w c Hai Hr Hs). world_fields.
    cbn [spread_message message isGeneratingMessage].
    split; [reflexivity | apply wish_of_nonempty]. }
  split; [exact Hsettled | split].
  - rewrite run_edit_handler. destruct e; split; reflexivity.
  - rewrite run_edit_handler. destruct Hsettled as [Hflag _].
    destruct e; split; cbn; solve [exact Hflag | reflexivity].
Qed.

Lemma stale_edit_undoes_settlement_witness :
  isGeneratingMessage
    (card (snd (run joy_env
                    (edit_handler (spread_isGeneratingMessage true (card initial_world))
                       (EditTone Funny))
                    (snd (run joy_env (handleGenerateText (sample_card (lit "Ann") (lit "Bob"))) initial_world)))))
  = true.
Proof.
  apply (stale_edit_undoes_settlement joy_env (GoogleGenAI []) initial_world
           (sample_card (lit "Ann") (lit "Bob")) (EditTone Funny));
    [reflexivity | discriminate | discriminate].
Defined.

(** ** The services module *)

Lemma run_generateCardImage (env : Env) (t : CardTone) (r : jsstring) (w : World) :
  run env (Gemini.generateCardImage t r) w =
  match newGoogleGenAI env with
  | Rejected e0 => (Thrown e0, w)
  | Resolved _ =>
      match generateContent env (Gemini.image_request t) with
      | Resolved response =>
          (Normal (first_inline_image (response_parts response)),
           log_request (Gemini.image_request t) w)
      | Rejected e =>
          (Normal None,
           log_consoleError (lit "Error generating image:") e
             (log_request (Gemini.image_request t) w))
      end
  end.
Proof.
  unfold Gemini.generateCardImage, Gemini.getAI. change (await NewGoogleGenAI) with getAI.
  rewrite run_getAI_bind.
  destruct (newGoogleGenAI env) as [ai | e0]; [| reflexivity].
  rewrite run_try_catch. unfold await. simpl.
  destruct (generateContent env (Gemini.image_request t)); reflexivity.
Qed.

(** X23: the image function of the services module sends a different
    prompt from the application's for every tone, with the same model and
    aspect ratio, and decodes the answer in the same way: given the same
    answer the two return the same result. *)
Theorem image_services_differ_in_prompt_only
    (env : Env) (w : World) (t : CardTone) (r : jsstring) :
  image_request t <> Gemini.image_request t
  /\ model (image_request t) = model (Gemini.image_request t)
  /\ aspectRatio (image_request t) = aspectRatio (Gemini.image_request t)
  /\ (generateContent env (image_request t) = generateContent env (Gemini.image_request t) ->
      fst (run env (generateCardImageAI t) w)
      = fst (run env (Gemini.generateCardImage t r) w)).
Proof.
  split; [| split; [reflexivity | split; [reflexivity |]]].
  - destruct t; intro H; vm_compute in H; discriminate.
  - intro Hsame. rewrite run_generateCardImageAI, run_generateCardImage, Hsame.
    destruct (newGoogleGenAI env); [| reflexivity].
    destruct (generateContent env (Gemini.image_request t)); reflexivity.
Qed.

Lemma image_services_differ_in_prompt_only_witness :
  fst (run (sample_env (Resolved png_response)) (generateCardImageAI Funny) initial_world)
  = fst (run (sample_env (Resolved png_response))
             (Gemini.generateCardImage Funny (lit "Ann")) initial_world).
Proof.
  apply (image_services_differ_in_prompt_only (sample_env (Resolved png_response))
           initial_world Funny (lit "Ann")).
  reflexivity.
Defined.

(** X24: [generateWish] of the services module calls [getAI()] before its
    [try].  When that returns the client, the function issues one request
    and returns a non-empty string however the request settles; when it
    throws, the function rejects with that error and issues no request. *)
Theorem generateWish_outcome
    (env : Env) (w : World) (r s : jsstring) (t : CardTone) :
  match newGoogleGenAI env with
  | Resolved _ =>
      exists wish,
        fst (run env (Gemini.generateWish r s t) w) = Normal wish /\ wish <> []
        /\ requests (snd (run env (Gemini.generateWish r s t) w))
           = wish_request r s t :: requests w
  | Rejected e0 => run env (Gemini.generateWish r s t) w = (Thrown e0, w)
  end.
Proof.
  rewrite run_generateWish.
  destruct (newGoogleGenAI env) as [ai | e0]; [| reflexivity].
  destruct (generateContent env (wish_request r s t)) as [response | e].
  - eexists. split; [reflexivity | split; [| reflexivity]].
    destruct (text response) as [[| ch wish] |]; discriminate.
  - eexists. split; [reflexivity | split; [discriminate | reflexivity]].
Qed.

Lemma generateWish_outcome_witness :
  run no_client_env (Gemini.generateWish (lit "Ann") (lit "Bob") Funny) initial_world
  = (Thrown (lit "ReferenceError: process is not defined"), initial_world).
Proof.
  exact (generateWish_outcome no_client_env initial_world (lit "Ann") (lit "Bob") Funny).
Defined.
